(** * KCachegrind trace data model (tracedata.h)

    A shallow embedding of the classes of [tracedata.h]: the 64-bit event
    counter [SubCost], the cost vector [TraceCost], cost types and their
    mapping, sub-mappings, trace parts and the aggregate [TraceData].

    Conventions.
    - C++ [int] and [unsigned] are 32 bits wide, [uint64] is 64 bits wide;
      all of them are carried by [Z] with the wrap-around written out.
    - A C array [T a[N]] is a [carray T N]: a list together with the proof
      that it has exactly [N] elements.  Reading it ([aget]) yields [None]
      outside [0 .. N-1], so an access outside the table is visible.
    - Inline member functions of the header are translated as they are
      written.  Member functions that are only declared in the header are
      modelled from the specification, and say so in their comment. *)

From Stdlib Require Import ZArith Lia Bool Ascii String.
From stdpp Require Import base list strings.

Local Open Scope Z_scope.

(** ** Machine integers *)

Module MachInt.

Definition int_min : Z := - 2 ^ 31.
Definition int_max : Z := 2 ^ 31 - 1.

(** [is_int i]: [i] is a value of the C++ type [int]. *)
Definition is_int (i : Z) : Prop := int_min <= i <= int_max.

(** The conversion [(unsigned) i]. *)
Definition to_unsigned (i : Z) : Z := i mod 2 ^ 32.

(** The conversion of an integer value to [uint64]
    ([unsigned long long]). *)
Definition to_uint64 (i : Z) : Z := i mod 2 ^ 64.

(** The conversion of an [int] expression back to [int]
    (two's complement wrap-around). *)
Definition to_int (i : Z) : Z := (i + 2 ^ 31) mod 2 ^ 32 - 2 ^ 31.

End MachInt.

(** ** SubCost: cost event counter, a wrapper around a 64-bit entity *)

Module SubCost.
Import MachInt.

Record t : Type := mk { v : Z }.

(** [SubCost(uint64 i) { v=i; }] *)
Definition of_uint64 (i : Z) : t := {| v := to_uint64 i |}.

(** [SubCost(unsigned i) { v=i; }] *)
Definition of_unsigned (i : Z) : t := {| v := to_uint64 (to_unsigned i) |}.

(** [SubCost(int i) { v=(unsigned)i; }] *)
Definition of_int (i : Z) : t := {| v := to_uint64 (to_unsigned i) |}.

(** [SubCost& operator=(uint64 i) { v = i; return *this; }] *)
Definition assign_uint64 (s : t) (i : Z) : t := {| v := to_uint64 i |}.

(** [SubCost& operator=(unsigned i) { v = i; return *this; }] *)
Definition assign_unsigned (s : t) (i : Z) : t :=
  {| v := to_uint64 (to_unsigned i) |}.

(** [SubCost& operator=(int i) { v = i; return *this; }]: the [int] is
    converted to [uint64] directly. *)
Definition assign_int (s : t) (i : Z) : t := {| v := to_uint64 i |}.

(** [bool operator==(int i) const { return v == (unsigned)i; }] *)
Definition eq_int (s : t) (i : Z) : bool := v s =? to_unsigned i.

(** [bool operator<(const SubCost& s) const { return v < s.v; }] *)
Definition lt (a b : t) : bool := v a <? v b.

(** [bool operator>(const SubCost& s) const { return v > s.v; }] *)
Definition gt (a b : t) : bool := v b <? v a.

(** [uint64] addition and subtraction, as obtained through
    [operator uint64&()]. *)
Definition add64 (a b : Z) : Z := to_uint64 (a + b).
Definition sub64 (a b : Z) : Z := to_uint64 (a - b).
Definition mul64 (a b : Z) : Z := to_uint64 (a * b).

End SubCost.

(** ** QString, as far as the header uses it *)

Module QString.

(** A [QString] is either the null string [QString::null] or holds a
    sequence of characters. *)
Inductive t : Type :=
| null : t
| str (s : string) : t.

Definition chars (q : t) : string :=
  match q with
  | null => EmptyString
  | str s => s
  end.

(** [QString::isEmpty()]: true for the null string and for a string of
    length zero. *)
Definition isEmpty (q : t) : bool :=
  match q with
  | null => true
  | str s => Nat.eqb (String.length s) 0
  end.

End QString.

(** ** C arrays of a fixed size *)

Module CArray.

Record carray (A : Type) (n : nat) : Type :=
  mk { elems : list A; elems_len : length elems = n }.
Arguments mk {A n} _ _.
Arguments elems {A n} _.
Arguments elems_len {A n} _.

Definition in_bounds (n : nat) (i : Z) : bool :=
  (0 <=? i) && (i <? Z.of_nat n).

(** [a[i]] as an rvalue: [None] when [i] is outside [0 .. n-1]. *)
Definition aget {A n} (a : carray A n) (i : Z) : option A :=
  if in_bounds n i then elems a !! Z.to_nat i else None.

(** [a[i] = x]: [None] when [i] is outside [0 .. n-1]. *)
Definition aset {A n} (a : carray A n) (i : Z) (x : A)
  : option (carray A n) :=
  if in_bounds n i
  then Some (mk (<[Z.to_nat i := x]> (elems a))
                (eq_trans (length_insert (elems a) (Z.to_nat i) x)
                          (elems_len a)))
  else None.

(** An array all of whose slots hold [x]. *)
Definition afill {A} (n : nat) (x : A) : carray A n :=
  mk (replicate n x) (length_replicate n x).

(** The array that starts with the elements of [l] (as far as they fit)
    and holds [x] in the remaining slots. *)
Definition aofList {A} (n : nat) (x : A) (l : list A) : carray A n :=
  mk (resize n x l) (length_resize l n x).

(** The array whose slot [i] holds [f i (a[i])], for every slot. *)
Definition aimap {A n} (f : Z -> A -> A) (a : carray A n) : carray A n :=
  mk (imap (fun k x => f (Z.of_nat k) x) (elems a))
     (eq_trans (length_imap _ (elems a)) (elems_len a)).

End CArray.

Export CArray.

(** ** TraceItem: run-time type tags *)

Module TraceItem.

(** [enum CostType] of [TraceItem]. *)
Inductive CostType : Type :=
| Item | Cost
| PartInstr | Instr
| PartLine | Line
| PartInstrJump | InstrJump
| PartLineJump | LineJump
| PartInstrCall | InstrCall
| PartLineCall | LineCall
| PartCall | Call
| PartFunction | FunctionSource | Function | FunctionCycle
| PartClass | Class | ClassCycle
| PartFile | File | FileCycle
| PartObject | Object | ObjectCycle
| Part | Data
| MaxCostType | NoCostType.

Definition CostType_eqb (a b : CostType) : bool :=
  match a, b with
  | Item, Item | Cost, Cost | PartInstr, PartInstr | Instr, Instr
  | PartLine, PartLine | Line, Line | PartInstrJump, PartInstrJump
  | InstrJump, InstrJump | PartLineJump, PartLineJump
  | LineJump, LineJump | PartInstrCall, PartInstrCall
  | InstrCall, InstrCall | PartLineCall, PartLineCall
  | LineCall, LineCall | PartCall, PartCall | Call, Call
  | PartFunction, PartFunction | FunctionSource, FunctionSource
  | Function, Function | FunctionCycle, FunctionCycle
  | PartClass, PartClass | Class, Class | ClassCycle, ClassCycle
  | PartFile, PartFile | File, File | FileCycle, FileCycle
  | PartObject, PartObject | Object, Object | ObjectCycle, ObjectCycle
  | Part, Part | Data, Data | MaxCostType, MaxCostType
  | NoCostType, NoCostType => true
  | _, _ => false
  end.

End TraceItem.

(** ** TraceCost: constants of the cost vector *)

(** [static const int MaxRealIndex = 10;] *)
Definition MaxRealIndex : Z := 10.

(** [static const int InvalidIndex = -1;] *)
Definition InvalidIndex : Z := -1.

(** The number of slots of an array declared [T a[MaxRealIndex]]. *)
Definition MaxRealSlots : nat := Z.to_nat MaxRealIndex.

(** ** TraceSubMapping: a fixed ordered list of real indexes *)

Module TraceSubMapping.

(** The data members of the class (the back pointer [_mapping] is left
    out). *)
Record t : Type := mk {
  _count : Z;
  _firstUnused : Z;
  _isIdentity : bool;
  _realIndex : carray Z MaxRealSlots;
  _nextUnused : carray Z MaxRealSlots
}.

(** [int count() { return _count; }] *)
Definition count (sm : t) : Z := _count sm.

(** [bool isIdentity() { return _isIdentity; }] *)
Definition isIdentity (sm : t) : bool := _isIdentity sm.

(** [int realIndex(int i)
      { return (i<0 || i>=_count) ? TraceCost::InvalidIndex
                                  : _realIndex[i]; }]
    The result is [None] when the function reads outside [_realIndex]. *)
Definition realIndex (sm : t) (i : Z) : option Z :=
  if (i <? 0) || (i >=? _count sm) then Some InvalidIndex
  else aget (_realIndex sm) i.

(** [int firstUnused() { return _firstUnused; }] *)
Definition firstUnused (sm : t) : Z := _firstUnused sm.

(** [int nextUnused(int i) {
      if (i<0 || i>=TraceCost::MaxRealIndex)
        return TraceCost::InvalidIndex;
      return _nextUnused[i]; }]
    The result is [None] when the function reads outside
    [_nextUnused]. *)
Definition nextUnused (sm : t) (i : Z) : option Z :=
  if (i <? 0) || (i >=? MaxRealIndex) then Some InvalidIndex
  else aget (_nextUnused sm) i.

(** The iteration idiom given with [firstUnused]:
    [for(i = firstUnused(); i != TraceCost::InvalidIndex;
         i = nextUnused(i)) { LOOP }].
    [unusedFrom fuel sm i] runs at most [fuel] rounds of the loop from
    the index [i] and returns the indexes the loop body was run with;
    it is [None] when some call of [nextUnused] reads outside its
    table. *)
Fixpoint unusedFrom (fuel : nat) (sm : t) (i : Z) : option (list Z) :=
  match fuel with
  | O => Some []
  | S fuel' =>
      if i =? InvalidIndex then Some []
      else match nextUnused sm i with
           | None => None
           | Some j =>
               match unusedFrom fuel' sm j with
               | None => None
               | Some l => Some (i :: l)
               end
           end
  end.

Definition unusedIndexes (fuel : nat) (sm : t) : option (list Z) :=
  unusedFrom fuel sm (firstUnused sm).

(** The class invariant on the used prefix: [_count] stays within the
    table. *)
Definition count_ok (sm : t) : Prop := 0 <= _count sm <= MaxRealIndex.

End TraceSubMapping.

(** ** TraceCostType: a cost type, real or virtual *)

Module TraceCostType.

(** The data members of the class (the back pointer [_mapping] is left
    out: the mapping is passed to the functions that need it).
    [_coefficient] is declared [int _coefficient[TraceCost::MaxRealIndex]],
    under the comment that index MaxRealIndex is for constant
    addition. *)
Record t : Type := mk {
  _name : QString.t;
  _longName : QString.t;
  _formula : QString.t;
  _parsed : bool;
  _inParsing : bool;
  _coefficient : carray Z MaxRealSlots;
  _realIndex : Z
}.

(** [const QString& name() { return _name; }] *)
Definition name (ct : t) : QString.t := _name ct.

(** [const QString& formula() { return _formula; }] *)
Definition formula (ct : t) : QString.t := _formula ct.

(** [int realIndex() { return _realIndex; }] *)
Definition realIndex (ct : t) : Z := _realIndex ct.

(** [bool isReal() { return _formula.isEmpty(); }] *)
Definition isReal (ct : t) : bool := QString.isEmpty (_formula ct).

End TraceCostType.

(** ** TraceCost: an array of basic cost metrics *)

Module TraceCost.
Import MachInt SubCost.

(** The data members [_dirty] (of [TraceItem]), [_cost] and [_count];
    each slot of [_cost] is the 64-bit value [v] of its [SubCost].  The
    pointers [_part] and [_dep] and the cache of the last virtual sub
    cost are left out. *)
Record t : Type := mk {
  _dirty : bool;
  _cost : carray Z MaxRealSlots;
  _count : Z   (* only _count first indexes of _cost are used *)
}.


(** Modelled from the spec: [SubCost TraceCost::subCost(int)], declared
    in the header without a body.  The getter of a real index: the
    counter of a used slot, and a zero [SubCost] for an index outside
    the used prefix. *)
Definition subCost (x : t) (idx : Z) : Z :=
  if (0 <=? idx) && (idx <? _count x)
  then from_option id 0 (aget (_cost x) idx)
  else 0.

(** Modelled from the spec: [void TraceCost::clear()], declared in the
    header without a body.  Sets all cost counters to zero; the used
    prefix becomes empty. *)
Definition clear (x : t) : t :=
  {| _dirty := _dirty x; _cost := afill MaxRealSlots 0; _count := 0 |}.

(** Modelled from the spec: [void TraceCost::addCost(TraceCost* item)],
    declared in the header without a body.  The counters are added slot
    by slot over the slots that both vectors use, the slots that only
    one of them uses keep the value of that one (the other counts as
    zero there), and [_count] grows to the maximum of the two. *)
Definition addCost (x item : t) : t :=
  {| _dirty := _dirty x;
     _cost := aimap (fun i _ => add64 (subCost x i) (subCost item i))
                    (_cost x);
     _count := Z.max (_count x) (_count item) |}.

(** The difference of two 64-bit unsigned counters that saturates at
    zero: the subtraction is done only where [b] is below [a]. *)
Definition monus64 (a b : Z) : Z := if b <? a then sub64 a b else 0.

(** Modelled from the spec: [TraceCost TraceCost::diff(TraceCost* item)],
    declared in the header without a body.  Element-wise subtraction
    returning a new vector: slot [i] of the result is
    [max(0, self[i] - other[i])], for each slot; underflow saturates at
    zero ([monus64]).  As for [addCost], a slot that only one of the two
    vectors uses counts as zero in the other, and the result uses every
    slot that one of them uses. *)
Definition diff (x item : t) : t :=
  {| _dirty := _dirty x;
     _cost := aimap (fun i _ => monus64 (subCost x i) (subCost item i))
                    (_cost x);
     _count := Z.max (_count x) (_count item) |}.

End TraceCost.

(** ** TracePart: all data read from one trace file *)

Module TracePart.

(** The data members [_name], [_number], [_active] and [_totals] (the
    totals line); the descriptive strings are left out. *)
Record t : Type := mk {
  _name : QString.t;
  _number : Z;
  _active : bool;
  _totals : TraceCost.t
}.

(** [TraceCost* totals() { return &_totals; }] *)
Definition totals (p : t) : TraceCost.t := _totals p.

(** [bool isActive() { return _active; }] *)
Definition isActive (p : t) : bool := _active p.

Definition setActive (p : t) (a : bool) : t :=
  {| _name := _name p; _number := _number p; _active := a;
     _totals := _totals p |}.

(** Modelled from the spec: [bool TracePart::activate(bool)], declared
    in the header without a body.  Sets the flag and returns true iff
    the flag changed. *)
Definition activate (p : t) (active : bool) : t * bool :=
  (setActive p active, negb (eqb (_active p) active)).

End TracePart.

(** ** Items summed up from the trace parts *)

(** Pointers between items are positions: a [TraceFunction*] is the
    position of the function in the function map of the data, a
    [TraceObject*], [TraceFile*] or [TraceClass*] the position in the
    respective map, a [TraceFunctionCycle*] the position in the list of
    function cycles. *)

Module TraceLine.
(** [_lineno], the result of [name()] and the cost of the line. *)
Record t : Type := mk { _lineno : Z; name : string; cost : TraceCost.t }.
End TraceLine.

Module TraceInstr.
(** [_addr], the result of [name()] and the cost of the instruction. *)
Record t : Type := mk { _addr : Z; name : string; cost : TraceCost.t }.

(** [bool isValid() { return _addr != 0; }] *)
Definition isValid (i : t) : bool := negb (_addr i =? 0).
End TraceInstr.

Module TraceCall.
(** [_caller], [_called], the result of [name()] and the cost of the
    call. *)
Record t : Type := mk {
  _caller : nat;
  _called : nat;
  name : string;
  cost : TraceCost.t
}.

(** [bool isRecursion() { return _caller == _called; }] *)
Definition isRecursion (c : t) : bool := Nat.eqb (_caller c) (_called c).
End TraceCall.

Module TraceCostItem.
(** [TraceClass], [TraceFile] and [TraceObject]: the name and the cost. *)
Record t : Type := mk { _name : string; cost : TraceCost.t }.

(** [virtual QString name() { return _name; }] *)
Definition name (i : t) : string := _name i.
End TraceCostItem.

Module TraceFunction.

(** The data members of a function that the model uses.  [_callings] is
    the list of calls the function is calling (it is their owner);
    [_cycle] and [_cycleLow] belong to the cycle detection.  The stack
    of the cycle detection, linked through [_cycleStackDown], is kept
    as a list by the detection itself. *)
Record t : Type := mk {
  _name : string;
  _cls : nat;
  _file : nat;
  _object : nat;
  cost : TraceCost.t;
  _callings : list TraceCall.t;
  lines : list TraceLine.t;
  instrs : list TraceInstr.t;
  _cycle : option nat;
  _cycleLow : Z
}.

(** [virtual QString name() { return _name; }] (of [TraceCostItem]) *)
Definition name (f : t) : string := _name f.

(** [TraceFunctionCycle* cycle() { return _cycle; }] *)
Definition cycle (f : t) : option nat := _cycle f.

(** [void setCycle(TraceFunctionCycle* c) { _cycle = c; }] *)
Definition setCycle (f : t) (c : option nat) : t :=
  {| _name := _name f; _cls := _cls f; _file := _file f;
     _object := _object f; cost := cost f; _callings := _callings f;
     lines := lines f; instrs := instrs f;
     _cycle := c; _cycleLow := _cycleLow f |}.

Definition setCycleLow (f : t) (low : Z) : t :=
  {| _name := _name f; _cls := _cls f; _file := _file f;
     _object := _object f; cost := cost f; _callings := _callings f;
     lines := lines f; instrs := instrs f;
     _cycle := _cycle f; _cycleLow := low |}.

(** The functions called by [f], in the order of its call list. *)
Definition calledFunctions (f : t) : list nat :=
  TraceCall._called <$> _callings f.

(** Modelled from the spec: [bool TraceFunction::isCycleMember()],
    declared in the header without a body.  A function is a member of a
    cycle iff its cycle pointer is not null. *)
Definition isCycleMember (f : t) : bool :=
  match _cycle f with
  | Some _ => true
  | None => false
  end.

(** Modelled from the spec: [void TraceFunction::cycleReset()], declared
    in the header without a body.  Clears the scratch data of the cycle
    detection and the cycle pointer. *)
Definition cycleReset (f : t) : t := setCycleLow (setCycle f None) 0.

End TraceFunction.

Module TraceFunctionCycle.

(** [_base], [_cycleNo] and [_members]; of the [TraceFunction] the class
    derives from, the list [_callings] of the calls that leave the
    cycle. *)
Record t : Type := mk {
  _base : nat;
  _cycleNo : Z;
  _members : list nat;
  _callings : list TraceCall.t
}.

(** [TraceFunction* base() { return _base; }] *)
Definition base (c : t) : nat := _base c.

(** [int cycleNo() { return _cycleNo; }] *)
Definition cycleNo (c : t) : Z := _cycleNo c.

(** [const TraceFunctionList& members() { return _members; }] *)
Definition members (c : t) : list nat := _members c.

(** Modelled from the spec: [void TraceFunctionCycle::init()], declared
    in the header without a body.  This removes all members from this
    cycle. *)
Definition init (c : t) : t :=
  {| _base := _base c; _cycleNo := _cycleNo c; _members := [];
     _callings := [] |}.

(** The list part of [add]: the function is appended to the members. *)
Definition addMember (c : t) (f : nat) : t :=
  {| _base := _base c; _cycleNo := _cycleNo c;
     _members := _members c ++ [f]; _callings := _callings c |}.

Definition setCallings (c : t) (l : list TraceCall.t) : t :=
  {| _base := _base c; _cycleNo := _cycleNo c;
     _members := _members c; _callings := l |}.

End TraceFunctionCycle.

(** ** TraceData: the profiling data of one command *)

Module TraceData.

(** [base] is the [TraceCost] the class derives from.  The maps are in
    the iteration order of the [QMap]s, that is sorted by key. *)
Record t : Type := mk {
  base : TraceCost.t;
  _parts : list TracePart.t;
  _objectMap : list (string * TraceCostItem.t);
  _classMap : list (string * TraceCostItem.t);
  _fileMap : list (string * TraceCostItem.t);
  _functionMap : list (string * TraceFunction.t);
  _functionCycles : list TraceFunctionCycle.t;
  _functionCycleCount : Z;
  _inFunctionCycleUpdate : bool
}.

Definition setBase (d : t) (b : TraceCost.t) : t :=
  {| base := b; _parts := _parts d; _objectMap := _objectMap d;
     _classMap := _classMap d; _fileMap := _fileMap d;
     _functionMap := _functionMap d;
     _functionCycles := _functionCycles d;
     _functionCycleCount := _functionCycleCount d;
     _inFunctionCycleUpdate := _inFunctionCycleUpdate d |}.

Definition setParts (d : t) (ps : list TracePart.t) : t :=
  {| base := base d; _parts := ps; _objectMap := _objectMap d;
     _classMap := _classMap d; _fileMap := _fileMap d;
     _functionMap := _functionMap d;
     _functionCycles := _functionCycles d;
     _functionCycleCount := _functionCycleCount d;
     _inFunctionCycleUpdate := _inFunctionCycleUpdate d |}.

Definition setFunctionMap (d : t) (fm : list (string * TraceFunction.t)) : t :=
  {| base := base d; _parts := _parts d; _objectMap := _objectMap d;
     _classMap := _classMap d; _fileMap := _fileMap d;
     _functionMap := fm;
     _functionCycles := _functionCycles d;
     _functionCycleCount := _functionCycleCount d;
     _inFunctionCycleUpdate := _inFunctionCycleUpdate d |}.

Definition setFunctionCycles (d : t) (cs : list TraceFunctionCycle.t)
           (n : Z) : t :=
  {| base := base d; _parts := _parts d; _objectMap := _objectMap d;
     _classMap := _classMap d; _fileMap := _fileMap d;
     _functionMap := _functionMap d;
     _functionCycles := cs;
     _functionCycleCount := n;
     _inFunctionCycleUpdate := _inFunctionCycleUpdate d |}.

Definition setInFunctionCycleUpdate (d : t) (b : bool) : t :=
  {| base := base d; _parts := _parts d; _objectMap := _objectMap d;
     _classMap := _classMap d; _fileMap := _fileMap d;
     _functionMap := _functionMap d;
     _functionCycles := _functionCycles d;
     _functionCycleCount := _functionCycleCount d;
     _inFunctionCycleUpdate := b |}.

(** The function a [TraceFunction*] points to. *)
Definition getFunction (d : t) (f : nat) : option TraceFunction.t :=
  snd <$> _functionMap d !! f.

(** An update of the function a [TraceFunction*] points to. *)
Definition alterFunction (d : t) (f : nat)
           (g : TraceFunction.t -> TraceFunction.t) : t :=
  setFunctionMap d (alter (fun kf => (fst kf, g (snd kf))) f (_functionMap d)).

(** [TracePartList parts() const { return _parts; }] *)
Definition parts (d : t) : list TracePart.t := _parts d.

(** [bool inFunctionCycleUpdate() { return _inFunctionCycleUpdate; }] *)
Definition inFunctionCycleUpdate (d : t) : bool := _inFunctionCycleUpdate d.

(** *** Activation of parts and the dynamic cost *)

(** Modelled from the spec: [bool TraceData::activatePart(TracePart*,
    bool active)], declared in the header without a body.  Sets the
    flag of the part (given by its position in [_parts]) and returns
    true iff something changed; the dynamic costs are not
    invalidated. *)
Definition activatePart (d : t) (p : nat) (active : bool) : t * bool :=
  match _parts d !! p with
  | None => (d, false)
  | Some q =>
      let (q', changed) := TracePart.activate q active in
      (setParts d (<[p := q']> (_parts d)), changed)
  end.

(** Modelled from the spec: [bool TraceData::activateParts(TracePartList,
    bool active)], declared in the header without a body.  Returns true
    iff the flag of any of the parts changed. *)
Definition activateParts (d : t) (l : list nat) (active : bool) : t * bool :=
  fold_left (fun acc p =>
               let (d', changed) := activatePart (fst acc) p active in
               (d', snd acc || changed))
            l (d, false).

(** Modelled from the spec: [bool TraceData::activateAll(bool active)],
    declared in the header without a body. *)
Definition activateAll (d : t) (active : bool) : t * bool :=
  activateParts d (seq 0 (length (_parts d))) active.

Definition setDirty (x : TraceCost.t) (b : bool) : TraceCost.t :=
  {| TraceCost._dirty := b; TraceCost._cost := TraceCost._cost x;
     TraceCost._count := TraceCost._count x |}.

(** Modelled from the spec: [void TraceData::invalidateDynamicCost()],
    declared in the header without a body.  Invalidates all cost items
    dependant on the active state of the parts: the data is marked
    dirty, nothing is recomputed. *)
Definition invalidateDynamicCost (d : t) : t :=
  setBase d (setDirty (base d) true).

(** Modelled from the spec: the loop of [TraceData::update()].  The sum
    of the totals of the active parts, added in the order of the part
    list to the cleared vector. *)
Definition sumActiveParts (x : TraceCost.t) (ps : list TracePart.t)
  : TraceCost.t :=
  fold_left (fun acc p =>
               if TracePart.isActive p
               then TraceCost.addCost acc (TracePart.totals p)
               else acc)
            ps (TraceCost.clear x).

(** Modelled from the spec: [void TraceData::update()], declared in the
    header without a body.  When the data is dirty, it clears the
    cached vector, adds the cost of each part while skipping the parts
    that are not active, and clears the dirty flag. *)
Definition update (d : t) : t :=
  if TraceCost._dirty (base d)
  then setBase d (setDirty (sumActiveParts (base d) (_parts d)) false)
  else d.

(** Modelled from the spec: [SubCost TraceCost::subCost(int)] on the
    data.  Returns a sub cost; this triggers a call to [update()] if
    needed. *)
Definition subCost (d : t) (idx : Z) : t * Z :=
  let d' := update d in
  (d', TraceCost.subCost (base d') idx).

(** [subCost(t)] for a real cost type [t]: the sub cost at the real
    index of the type. *)
Definition subCostReal (d : t) (ct : TraceCostType.t) : t * Z :=
  subCost d (TraceCostType.realIndex ct).

End TraceData.

(** *** The sum over the active parts, as a number *)

Module ActiveSum.

Definition zsum (l : list Z) : Z := foldr Z.add 0 l.

Definition activeParts (ps : list TracePart.t) : list TracePart.t :=
  filter (fun p => TracePart.isActive p = true) ps.

(** The sum over the active parts of [ps] of the sub cost [idx] of the
    totals of the part. *)
Definition activeTotal (ps : list TracePart.t) (idx : Z) : Z :=
  zsum ((fun p => TraceCost.subCost (TracePart.totals p) idx)
          <$> activeParts ps).

(** The cached vector of the data is valid: the data is dirty, or every
    sub cost it holds is the sum over the active parts. *)
Definition cacheValid (d : TraceData.t) : Prop :=
  TraceCost._dirty (TraceData.base d) = false ->
  forall idx,
    TraceCost.subCost (TraceData.base d) idx
    = MachInt.to_uint64 (activeTotal (TraceData.parts d) idx).

End ActiveSum.


(** ** TraceData::search *)

Module Search.
Import TraceItem.

(** A [TraceCost*] that [search] takes as parent or returns: the item
    it points to.  Lines, instructions and calls are addressed by the
    function that owns them and their position in its list. *)
Inductive ItemRef : Type :=
| ObjectRef (o : nat)
| FileRef (f : nat)
| ClassRef (c : nat)
| FunctionRef (f : nat)
| FunctionCycleRef (c : nat)
| LineRef (f l : nat)
| InstrRef (f i : nat)
| CallRef (f c : nat)
| PartRef (p : nat)
| DataRef.

(** [virtual CostType type()] of the item a reference points to. *)
Definition type (r : ItemRef) : CostType :=
  match r with
  | ObjectRef _ => Object
  | FileRef _ => File
  | ClassRef _ => Class
  | FunctionRef _ => Function
  | FunctionCycleRef _ => FunctionCycle
  | LineRef _ _ => Line
  | InstrRef _ _ => Instr
  | CallRef _ _ => Call
  | PartRef _ => Part
  | DataRef => Data
  end.

Section WithSubCost.

(** [x->subCost(ct)]: the sub cost of a cost item for a cost type. *)
Variable subCostOf : TraceCostType.t -> TraceCost.t -> Z.

(** The sub cost that candidates are compared by; without a cost type
    ([ct = 0]) all candidates tie. *)
Definition score (ct : option TraceCostType.t) (x : TraceCost.t) : Z :=
  match ct with
  | Some c => subCostOf c x
  | None => 0
  end.

(** Modelled from the spec: one round of the scan of [search].  A
    candidate replaces the current result only
    if its sub cost is strictly higher, so that ties resolve to the first
    candidate encountered. *)
Definition pick (top : option (ItemRef * Z)) (cand : ItemRef * Z)
  : option (ItemRef * Z) :=
  match top with
  | None => Some cand
  | Some (_, scTop) => if scTop <? snd cand then Some cand else top
  end.

Definition highest (cands : list (ItemRef * Z)) : option ItemRef :=
  fst <$> fold_left pick cands None.

(** Modelled from the spec: the candidates of [search] among the items
    [l], those with the given name that are accepted, in the order of
    [l]. *)
Definition candidates {A} (ref : nat -> ItemRef) (accept : A -> bool)
           (nameOf : A -> string) (costOf : A -> TraceCost.t)
           (ct : option TraceCostType.t) (name : string) (l : list A)
  : list (ItemRef * Z) :=
  omap (fun x => x)
       (imap (fun i x =>
                if String.eqb (nameOf x) name && accept x
                then Some (ref i, score ct (costOf x))
                else None) l).

(** Modelled from the spec: the restriction of [search] by a parent of
    type Class, File or Object. *)
Definition underParent (parent : option ItemRef) (f : TraceFunction.t)
  : bool :=
  match parent with
  | Some (ClassRef c) => Nat.eqb c (TraceFunction._cls f)
  | Some (FileRef fl) => Nat.eqb fl (TraceFunction._file f)
  | Some (ObjectRef o) => Nat.eqb o (TraceFunction._object f)
  | _ => true
  end.

(** The function a parent of type [Function] points to. *)
Definition parentFunction (d : TraceData.t) (parent : option ItemRef)
  : option (nat * TraceFunction.t) :=
  match parent with
  | Some (FunctionRef fi) =>
      match TraceData._functionMap d !! fi with
      | Some (_, f) => Some (fi, f)
      | None => None
      end
  | _ => None
  end.

(** Modelled from the spec: [TraceCost* TraceData::search(
    TraceItem::CostType, QString, TraceCostType* ct = 0,
    TraceCost* parent = 0)], declared in the header without a body.
    Search for the item with the given name and the highest sub cost of
    the given cost type.  Instr, Line and Call need a parent of type
    Function; for Function a parent of type Object, File or Class can be
    given and restricts the search.  The result is [None] for the null
    pointer. *)
Definition search (d : TraceData.t) (t : CostType) (name : string)
           (ct : option TraceCostType.t) (parent : option ItemRef)
  : option ItemRef :=
  let pt := match parent with
            | Some p => type p
            | None => NoCostType
            end in
  match t with
  | Function =>
      highest
        (candidates FunctionRef
           (fun kf => underParent parent (snd kf))
           (fun kf => TraceFunction.name (snd kf))
           (fun kf => TraceFunction.cost (snd kf)) ct name
           (TraceData._functionMap d))
  | Object =>
      highest (candidates ObjectRef (fun _ => true)
                 (fun kx => TraceCostItem.name (snd kx))
                 (fun kx => TraceCostItem.cost (snd kx)) ct name
                 (TraceData._objectMap d))
  | File =>
      highest (candidates FileRef (fun _ => true)
                 (fun kx => TraceCostItem.name (snd kx))
                 (fun kx => TraceCostItem.cost (snd kx)) ct name
                 (TraceData._fileMap d))
  | Class =>
      highest (candidates ClassRef (fun _ => true)
                 (fun kx => TraceCostItem.name (snd kx))
                 (fun kx => TraceCostItem.cost (snd kx)) ct name
                 (TraceData._classMap d))
  | Instr =>
      if CostType_eqb pt Function then
        match parentFunction d parent with
        | Some (fi, f) =>
            highest (candidates (InstrRef fi) (fun _ => true)
                       TraceInstr.name TraceInstr.cost ct name
                       (TraceFunction.instrs f))
        | None => None
        end
      else None
  | Line =>
      if CostType_eqb pt Function then
        match parentFunction d parent with
        | Some (fi, f) =>
            highest (candidates (LineRef fi) (fun _ => true)
                       TraceLine.name TraceLine.cost ct name
                       (TraceFunction.lines f))
        | None => None
        end
      else None
  | Call =>
      if CostType_eqb pt Function then
        match parentFunction d parent with
        | Some (fi, f) =>
            highest (candidates (CallRef fi) (fun _ => true)
                       TraceCall.name TraceCall.cost ct name
                       (TraceFunction._callings f))
        | None => None
        end
      else None
  | _ => None
  end.

End WithSubCost.

(** The sub cost of a real cost type: the counter at its real index. *)
Definition realSubCost (ct : TraceCostType.t) (x : TraceCost.t) : Z :=
    TraceCost.subCost x (TraceCostType.realIndex ct).

End Search.

(** ** Formulas of virtual cost types *)

Module Formula.

(** Modelled from the spec: the formula syntax, a sum of signed
    integer-coefficient terms such as [2*Ir + 10*Dr - 1]; the parser is
    not in the header.  The tokens of a formula. *)
Inductive Token : Type :=
| TPlus
| TMinus
| TStar
| TNum (n : Z)
| TName (s : string).

Definition isDigit (c : ascii) : bool :=
  Ascii.leb "0" c && Ascii.leb c "9".

Definition isLetter (c : ascii) : bool :=
  (Ascii.leb "A" c && Ascii.leb c "Z")
  || (Ascii.leb "a" c && Ascii.leb c "z")
  || Ascii.eqb c "_".

Definition isSpace (c : ascii) : bool :=
  Ascii.eqb c " " || Ascii.eqb c "009".

Definition digitValue (c : ascii) : Z :=
  Z.of_N (N_of_ascii c) - Z.of_N (N_of_ascii "0").

(** The token that the tokenizer is in the middle of. *)
Inductive Pending : Type :=
| PNone
| PNum (n : Z)
| PName (s : string).

Definition flush (p : Pending) : list Token :=
  match p with
  | PNone => []
  | PNum n => [TNum n]
  | PName s => [TName s]
  end.

(** Modelled from the spec: the tokenizer of the formula parser.
    Numbers, names (a letter or underscore followed by
    letters, digits and underscores), the signs and the star, separated
    by optional blanks.  [None] on any other character. *)
Fixpoint tokenizeFrom (p : Pending) (s : string) : option (list Token) :=
  match s with
  | EmptyString => Some (flush p)
  | String c s' =>
      if isDigit c then
        match p with
        | PNone => tokenizeFrom (PNum (digitValue c)) s'
        | PNum n => tokenizeFrom (PNum (10 * n + digitValue c)) s'
        | PName w => tokenizeFrom (PName (w ++ String c EmptyString)) s'
        end
      else if isLetter c then
        match p with
        | PName w => tokenizeFrom (PName (w ++ String c EmptyString)) s'
        | _ => (fun l => flush p ++ l)
                 <$> tokenizeFrom (PName (String c EmptyString)) s'
        end
      else if isSpace c then
        (fun l => flush p ++ l) <$> tokenizeFrom PNone s'
      else if Ascii.eqb c "+" then
        (fun l => flush p ++ TPlus :: l) <$> tokenizeFrom PNone s'
      else if Ascii.eqb c "-" then
        (fun l => flush p ++ TMinus :: l) <$> tokenizeFrom PNone s'
      else if Ascii.eqb c "*" then
        (fun l => flush p ++ TStar :: l) <$> tokenizeFrom PNone s'
      else None
  end.

Definition tokenize (s : string) : option (list Token) :=
  tokenizeFrom PNone s.

(** A term of the sum: a signed integer coefficient and what it
    multiplies, a short type name or nothing (an integer constant). *)
Inductive Operand : Type :=
| OName (s : string)
| OConst.

Record Term : Type := mkTerm { factor : Z; operand : Operand }.

(** Where the term parser stands. *)
Inductive PState : Type :=
| SStart                      (* nothing read yet *)
| SSign (sg : Z)              (* a sign is read, a term must follow *)
| SNum (sg : Z) (n : Z)       (* sign and number are read *)
| SStar (sg : Z) (n : Z)      (* sign, number and star are read *)
| SDone.                      (* a term is complete *)

(** Modelled from the spec: the term parser,
    [formula ::= [sign] term { sign term }],
    [term ::= number | name | number * name].  [None] on a syntax
    error. *)
Fixpoint parseTerms (st : PState) (ts : list Token) : option (list Term) :=
  match ts with
  | [] =>
      match st with
      | SNum sg n => Some [mkTerm (sg * n) OConst]
      | SDone => Some []
      | _ => None
      end
  | TPlus :: r =>
      match st with
      | SStart | SDone => parseTerms (SSign 1) r
      | SNum sg n => cons (mkTerm (sg * n) OConst) <$> parseTerms (SSign 1) r
      | _ => None
      end
  | TMinus :: r =>
      match st with
      | SStart | SDone => parseTerms (SSign (-1)) r
      | SNum sg n =>
          cons (mkTerm (sg * n) OConst) <$> parseTerms (SSign (-1)) r
      | _ => None
      end
  | TNum n :: r =>
      match st with
      | SStart => parseTerms (SNum 1 n) r
      | SSign sg => parseTerms (SNum sg n) r
      | _ => None
      end
  | TStar :: r =>
      match st with
      | SNum sg n => parseTerms (SStar sg n) r
      | _ => None
      end
  | TName s :: r =>
      match st with
      | SStart => cons (mkTerm 1 (OName s)) <$> parseTerms SDone r
      | SSign sg => cons (mkTerm sg (OName s)) <$> parseTerms SDone r
      | SStar sg n => cons (mkTerm (sg * n) (OName s)) <$> parseTerms SDone r
      | _ => None
      end
  end.

(** The terms of a formula, [None] on a syntax error. *)
Definition terms (formula : QString.t) : option (list Term) :=
  match tokenize (QString.chars formula) with
  | Some ts => parseTerms SStart ts
  | None => None
  end.

End Formula.

(** ** TraceCostMapping: the set of cost types, and their evaluation *)

Module TraceCostMapping.
Import MachInt Formula.

(** Modelled from the spec: the coefficient vector that a virtual type
    caches, whose owner [TraceCostType::parseFormula()] has no body in
    the header.  The vector holds a coefficient for each real index and
    a constant coefficient at slot [MaxRealIndex].  The coefficients of
    the real indices are the table [_coefficient] of the cost type
    object, which has the slots [0 .. MaxRealIndex-1]; the constant
    slot is [constant]. *)
Record VirtualType : Type := mkVirtual {
  costType : TraceCostType.t;
  constant : Z
}.

(** Slot [k] of the coefficient vector of a virtual type. *)
Definition coefficient (vt : VirtualType) (k : Z) : Z :=
  if k =? MaxRealIndex then constant vt
  else from_option id 0 (aget (TraceCostType._coefficient (costType vt)) k).

Definition parsed (vt : VirtualType) : bool :=
  TraceCostType._parsed (costType vt).

Definition inParsing (vt : VirtualType) : bool :=
  TraceCostType._inParsing (costType vt).

(** The used prefixes of the tables [_real] and [_virtual]; their lengths
    are [_realCount] and [_virtualCount].  A [TraceCostType*] is the
    index of the type: real types are in the range [0 .. MaxRealIndex[,
    virtual types start at [MaxRealIndex]. *)
Record t : Type := mk {
  _real : list TraceCostType.t;
  _virtual : list VirtualType
}.

(** [int realCount() { return _realCount; }] *)
Definition realCount (m : t) : Z := Z.of_nat (length (_real m)).

(** [int virtualCount() { return _virtualCount; }] *)
Definition virtualCount (m : t) : Z := Z.of_nat (length (_virtual m)).

(** [int minVirtualIndex() { return TraceCost::MaxRealIndex; }] *)
Definition minVirtualIndex (m : t) : Z := MaxRealIndex.

(** The position in [_virtual] of the virtual type with index [i]. *)
Definition virtualSlot (i : Z) : nat := Z.to_nat (i - MaxRealIndex).

(** Modelled from the spec: [TraceCostType* realType(int)],
    [virtualType(int)] and [type(int)], declared in the header without a
    body.  The type with the given index, [None] (null) if there is
    none. *)
Definition realType (m : t) (i : Z) : option TraceCostType.t :=
  if (0 <=? i) && (i <? MaxRealIndex) then _real m !! Z.to_nat i else None.

Definition virtualEntry (m : t) (i : Z) : option VirtualType :=
  if MaxRealIndex <=? i then _virtual m !! virtualSlot i else None.

Definition virtualType (m : t) (i : Z) : option TraceCostType.t :=
  costType <$> virtualEntry m i.

Definition type (m : t) (i : Z) : option TraceCostType.t :=
  if i <? MaxRealIndex then realType m i else virtualType m i.

Fixpoint findName (name : string) (l : list TraceCostType.t) (k : Z)
  : option Z :=
  match l with
  | [] => None
  | ct :: r =>
      if String.eqb (QString.chars (TraceCostType.name ct)) name
      then Some k
      else findName name r (k + 1)
  end.

(** Modelled from the spec: [int TraceCostMapping::index(QString)],
    declared in the header without a body.  Looks a type up by its short
    name: first among the real types, which have the indices
    [0 .. MaxRealIndex-1], then among the virtual types, which have the
    indices from [MaxRealIndex] on; [InvalidIndex] if the name is
    unknown. *)
Definition index (m : t) (name : string) : Z :=
  match findName name (take MaxRealSlots (_real m)) 0 with
  | Some k => k
  | None =>
      match findName name (costType <$> _virtual m) MaxRealIndex with
      | Some k => k
      | None => InvalidIndex
      end
  end.

(** *** Updates of a cost type in the mapping *)

Definition setInParsing (b : bool) (vt : VirtualType) : VirtualType :=
  let ct := costType vt in
  mkVirtual
    (TraceCostType.mk (TraceCostType._name ct) (TraceCostType._longName ct)
       (TraceCostType._formula ct) (TraceCostType._parsed ct) b
       (TraceCostType._coefficient ct) (TraceCostType._realIndex ct))
    (constant vt).

(** The coefficients collected while a formula is resolved. *)
Record Coefficients : Type := mkCoefficients {
  ofReal : carray Z MaxRealSlots;
  ofConstant : Z
}.

Definition noCoefficients : Coefficients :=
  mkCoefficients (afill MaxRealSlots 0) 0.

Definition setParsedWith (coefs : Coefficients) (vt : VirtualType)
  : VirtualType :=
  let ct := costType vt in
  mkVirtual
    (TraceCostType.mk (TraceCostType._name ct) (TraceCostType._longName ct)
       (TraceCostType._formula ct) true false (ofReal coefs)
       (TraceCostType._realIndex ct))
    (ofConstant coefs).

Definition alterVirtual (m : t) (i : Z) (f : VirtualType -> VirtualType)
  : t :=
  mk (_real m) (alter f (virtualSlot i) (_virtual m)).

(** *** Parsing a formula *)

Inductive FormulaError : Type :=
| UnresolvedName (name : string)
| SyntaxError
| FormulaCycle.

(** What [parseFormula()] returns: true ([Parsed]) or false with the
    kind of the error. *)
Inductive ParseResult : Type :=
| Parsed
| Failed (e : FormulaError).

(** A run either returns, or accesses a table outside its bounds or a
    type that does not exist ([Fault]), or stops for lack of fuel. *)
Inductive Outcome (A : Type) : Type :=
| Done (a : A)
| Fault
| OutOfFuel.
Arguments Done {A} _.
Arguments Fault {A}.
Arguments OutOfFuel {A}.

(** [coef[i] += k] on a table of [int]. *)
Definition addAt (coefs : carray Z MaxRealSlots) (i k : Z)
  : option (carray Z MaxRealSlots) :=
  match aget coefs i with
  | Some c => aset coefs i (to_int (c + k))
  | None => None
  end.

(** The constant term [k]: it is added to the constant coefficient. *)
Definition addConstant (coefs : Coefficients) (k : Z) : Coefficients :=
  mkCoefficients (ofReal coefs) (to_int (ofConstant coefs + k)).

(** [coef[i] += k * other[i]] for every slot of the coefficient vector,
    the constant slot included. *)
Definition addScaled (coefs : Coefficients) (other : VirtualType) (k : Z)
  : Coefficients :=
  mkCoefficients
    (aimap (fun i c => to_int (c + k * coefficient other i)) (ofReal coefs))
    (to_int (ofConstant coefs + k * coefficient other MaxRealIndex)).

(** Modelled from the spec: the resolver of [parseFormula()], which
    walks the terms.  A constant is added to the constant coefficient
    (slot [MaxRealIndex] of the vector); a real type adds the factor to
    the coefficient at its real index, the index it has in the mapping;
    a virtual type is parsed itself ([parse]) and adds its coefficients,
    scaled by the factor.  A name that the mapping does not know is an
    error. *)
Fixpoint resolve (parse : t -> Z -> Outcome (t * ParseResult))
         (ts : list Term) (m : t) (coefs : Coefficients)
  : Outcome (t * (FormulaError + Coefficients)) :=
  match ts with
  | [] => Done (m, inr coefs)
  | tm :: rest =>
      match operand tm with
      | OConst => resolve parse rest m (addConstant coefs (factor tm))
      | OName name =>
          let k := index m name in
          if k =? InvalidIndex then Done (m, inl (UnresolvedName name))
          else if k <? MaxRealIndex then
            match addAt (ofReal coefs) k (factor tm) with
            | Some tbl =>
                resolve parse rest m (mkCoefficients tbl (ofConstant coefs))
            | None => Fault
            end
          else
            match parse m k with
            | Done (m', Parsed) =>
                match virtualEntry m' k with
                | Some vt =>
                    resolve parse rest m' (addScaled coefs vt (factor tm))
                | None => Fault
                end
            | Done (m', Failed e) => Done (m', inl e)
            | Fault => Fault
            | OutOfFuel => OutOfFuel
            end
      end
  end.

(** Modelled from the spec: [bool TraceCostType::parseFormula()],
    declared in the header without a body, for the virtual type with
    index [i]; [parse] stands for the calls of [parseFormula()] on the
    types the formula refers to.  An already parsed type is done.  The
    flag [_inParsing] guards against cycles: found set on entry, the
    formula refers to itself and parsing fails.  Otherwise the formula
    is tokenized and its names are resolved; on success the coefficients
    are cached and the type is marked parsed, on failure the type stays
    unparsed. *)
Definition parseFormulaBody (parse : t -> Z -> Outcome (t * ParseResult))
           (m : t) (i : Z) : Outcome (t * ParseResult) :=
  match virtualEntry m i with
  | None => Fault
  | Some vt =>
      if parsed vt then Done (m, Parsed)
      else if inParsing vt then Done (m, Failed FormulaCycle)
      else
        let m1 := alterVirtual m i (setInParsing true) in
        match terms (TraceCostType._formula (costType vt)) with
        | None =>
            Done (alterVirtual m1 i (setInParsing false), Failed SyntaxError)
        | Some ts =>
            match resolve parse ts m1 noCoefficients with
            | Done (m2, inr coefs) =>
                Done (alterVirtual m2 i (setParsedWith coefs), Parsed)
            | Done (m2, inl e) =>
                Done (alterVirtual m2 i (setInParsing false), Failed e)
            | Fault => Fault
            | OutOfFuel => OutOfFuel
            end
        end
  end.

(** The nesting of the calls of [parseFormula()], at most [fuel] deep. *)
Fixpoint parseFormulaFuel (fuel : nat) (m : t) (i : Z)
  : Outcome (t * ParseResult) :=
  match fuel with
  | O => OutOfFuel
  | S fuel' => parseFormulaBody (parseFormulaFuel fuel') m i
  end.

(** Every nested call of [parseFormula()] enters a virtual type that is
    not being parsed yet, so the calls nest at most as deep as there are
    virtual types. *)
Definition parseFormula (m : t) (i : Z) : Outcome (t * ParseResult) :=
  parseFormulaFuel (S (length (_virtual m))) m i.

(** Modelled from the spec: the dot product of the coefficients of the
    real indices with the real sub costs of a cost item. *)
Definition dotProduct (coefs : carray Z MaxRealSlots) (x : TraceCost.t) : Z :=
  ActiveSum.zsum
    (imap (fun i c => c * TraceCost.subCost x (Z.of_nat i)) (elems coefs)).

(** Modelled from the spec: the value of a parsed virtual type, part of
    [TraceCostType::subCost].  The dot product plus the constant
    coefficient, as a 64-bit counter. *)
Definition evalCoefficients (vt : VirtualType) (x : TraceCost.t) : Z :=
  to_uint64
    (dotProduct (TraceCostType._coefficient (costType vt)) x + constant vt).

(** The value of a virtual type in the words of the spec: the sum over
    the real indices [i] of [coef[i] * x.cost[i]], plus the constant
    coefficient [coef[MaxRealIndex]]. *)
Definition weightedSum (vt : VirtualType) (x : TraceCost.t) : Z :=
  ActiveSum.zsum
    ((fun k => coefficient vt k * TraceCost.subCost x k)
       <$> seqZ 0 MaxRealIndex)
  + coefficient vt MaxRealIndex.

(** Modelled from the spec: [SubCost TraceCostType::subCost(TraceCost* c)],
    declared in the header without a body, for the type with index [i].
    A real type yields the sub cost at its real index.  A virtual type
    is parsed if it is not parsed yet; if parsing fails the sub cost is
    0, otherwise it is the value of the cached coefficients. *)
Definition subCost (m : t) (i : Z) (x : TraceCost.t) : Outcome (t * Z) :=
  match type m i with
  | None => Fault
  | Some ct =>
      if TraceCostType.isReal ct
      then Done (m, TraceCost.subCost x (TraceCostType.realIndex ct))
      else
        match (if TraceCostType._parsed ct then Done (m, Parsed)
               else parseFormula m i) with
        | Done (m', Failed _) => Done (m', 0)
        | Done (m', Parsed) =>
            match virtualEntry m' i with
            | Some vt => Done (m', evalCoefficients vt x)
            | None => Fault
            end
        | Fault => Fault
        | OutOfFuel => OutOfFuel
        end
  end.

(** What a run returns, if it returns, without the mapping. *)
Definition returned {A B : Type} (o : Outcome (A * B)) : option B :=
  match o with
  | Done (_, b) => Some b
  | _ => None
  end.

(** *** What a call of [parseFormula()] leaves as it was *)

(** A virtual type after a call, against the type before it: the flag
    [_inParsing] and the name are as before, a parsed type stays parsed,
    and a type that was being parsed is untouched. *)
Definition stable (vt vt' : VirtualType) : Prop :=
  inParsing vt' = inParsing vt /\
  (parsed vt = true -> parsed vt' = true) /\
  (inParsing vt = true -> vt' = vt) /\
  TraceCostType._name (costType vt') = TraceCostType._name (costType vt).

Definition ext (m m' : t) : Prop :=
  _real m' = _real m /\ Forall2 stable (_virtual m) (_virtual m').

(** A type that a call of [parseFormula()] can still enter. *)
Definition available (vt : VirtualType) : bool :=
  negb (parsed vt) && negb (inParsing vt).

Fixpoint countAvailable (l : list VirtualType) : nat :=
  match l with
  | [] => 0
  | vt :: r => (if available vt then 1 else 0) + countAvailable r
  end.

End TraceCostMapping.

(** ** Detection of cycles of recursive calling functions *)

Module CycleDetection.
Import TraceFunction TraceData.

(** The data together with what [cycleDFS(int d, int& pNo,
    TraceFunction** pTop)] passes along: the counter [pNo] of pre-order
    numbers and the stack, from its top [*pTop] down along
    [_cycleStackDown].  [preOrder] holds, per function, the pre-order
    number that the visit of the function works with; [None] for a
    function that is not visited yet. *)
Record Walk : Type := mkWalk {
  data : TraceData.t;
  pNo : Z;
  pTop : list nat;
  preOrder : list (option Z)
}.

Definition setData (w : Walk) (d : TraceData.t) : Walk :=
  {| data := d; pNo := pNo w; pTop := pTop w; preOrder := preOrder w |}.

Definition setTop (w : Walk) (st : list nat) : Walk :=
  {| data := data w; pNo := pNo w; pTop := st; preOrder := preOrder w |}.

Definition cycleLowOf (w : Walk) (f : nat) : Z :=
  match getFunction (data w) f with
  | Some fn => _cycleLow fn
  | None => 0
  end.

Definition onStack (w : Walk) (f : nat) : bool := existsb (Nat.eqb f) (pTop w).

(** Modelled from the spec: step 2 of [cycleDFS].  The function gets
    the next pre-order number, [_cycleLow] is
    initialized to that number, and the function goes on the stack. *)
Definition enter (w : Walk) (f : nat) : Walk :=
  let n := pNo w + 1 in
  {| data := alterFunction (data w) f (fun fn => setCycleLow fn n);
     pNo := n;
     pTop := f :: pTop w;
     preOrder := <[f := Some n]> (preOrder w) |}.

(** [cycleLow = min(cycleLow, v)] for the function [f]. *)
Definition lowerTo (w : Walk) (f : nat) (v : Z) : Walk :=
  setData w (alterFunction (data w) f
               (fun fn => setCycleLow fn (Z.min (_cycleLow fn) v))).

(** Modelled from the spec: steps 3 and 4 of [cycleDFS], for one
    outgoing call of [f] to [g].  Recurse on the
    callee if it is not visited yet and take over its [cycleLow] on
    return; otherwise, if the callee is on the stack, take over its
    pre-order number.  [None] when the recursion runs out of fuel. *)
Definition visitCall (dfs : nat -> Walk -> option Walk) (f : nat)
           (w : Walk) (g : nat) : option Walk :=
  match preOrder w !! g with
  | Some None =>
      match dfs g w with
      | Some w' => Some (lowerTo w' f (cycleLowOf w' g))
      | None => None
      end
  | Some (Some pre) =>
      Some (if onStack w g then lowerTo w f pre else w)
  | None => Some w
  end.

Fixpoint visitCalls (dfs : nat -> Walk -> option Walk) (f : nat)
         (gs : list nat) (w : Walk) : option Walk :=
  match gs with
  | [] => Some w
  | g :: rest =>
      match visitCall dfs f w g with
      | Some w' => visitCalls dfs f rest w'
      | None => None
      end
  end.

(** Pops the stack down to [f]: the functions popped, from the top, and
    the rest of the stack. *)
Fixpoint popTo (f : nat) (st : list nat) : list nat * list nat :=
  match st with
  | [] => ([], [])
  | g :: rest =>
      if Nat.eqb g f then ([g], rest)
      else let (popped, rest') := popTo f rest in (g :: popped, rest')
  end.

(** Modelled from the spec: [TraceFunctionCycle*
    TraceData::functionCycle(TraceFunction* f)], declared in the header
    without a body.  The factory for function cycles: a new cycle with
    the next cycle number, with the function as its base; the result is
    the pointer to the cycle. *)
Definition functionCycle (d : TraceData.t) (f : nat) : TraceData.t * nat :=
  let n := _functionCycleCount d + 1 in
  (setFunctionCycles d
     (_functionCycles d ++ [TraceFunctionCycle.mk f n [] []]) n,
   length (_functionCycles d)).

Definition alterCycle (d : TraceData.t) (c : nat)
           (g : TraceFunctionCycle.t -> TraceFunctionCycle.t) : TraceData.t :=
  setFunctionCycles d (alter g c (_functionCycles d)) (_functionCycleCount d).

(** Modelled from the spec: [void TraceFunctionCycle::add(TraceFunction*
    f)], declared in the header without a body.  The function becomes a
    member of the cycle [c], and its cycle pointer is set to the cycle. *)
Definition cycleAdd (d : TraceData.t) (c : nat) (f : nat) : TraceData.t :=
  alterFunction (alterCycle d c (fun cy => TraceFunctionCycle.addMember cy f))
                f (fun fn => setCycle fn (Some c)).

(** The calls of the members of a cycle that leave the cycle. *)
Definition externalCallings (d : TraceData.t) (members : list nat)
  : list TraceCall.t :=
  concat ((fun f =>
             match getFunction d f with
             | Some fn =>
                 List.filter
                   (fun call =>
                      negb (existsb (Nat.eqb (TraceCall._called call)) members))
                   (_callings fn)
             | None => []
             end) <$> members).

(** Modelled from the spec: [void TraceFunctionCycle::setup()], declared
    in the header without a body.  This sets up the cycle once members
    are added: calls inside the cycle are suppressed from the view of
    the cycle from outside. *)
Definition cycleSetup (d : TraceData.t) (c : nat) : TraceData.t :=
  alterCycle d c
    (fun cy => TraceFunctionCycle.setCallings cy
                 (externalCallings d (TraceFunctionCycle.members cy))).

(** Modelled from the spec: the end of step 5.  A new cycle of the
    functions popped: [init()], then [add] for each member, finally
    [setup()]. *)
Definition newCycle (d : TraceData.t) (f : nat) (popped : list nat)
  : TraceData.t :=
  let (d1, c) := functionCycle d f in
  let d2 := alterCycle d1 c TraceFunctionCycle.init in
  cycleSetup (fold_left (fun d' g => cycleAdd d' c g) popped d2) c.

Definition callsItself (d : TraceData.t) (f : nat) : bool :=
  match getFunction d f with
  | Some fn => existsb (Nat.eqb f) (calledFunctions fn)
  | None => false
  end.

(** Modelled from the spec: step 5 of [cycleDFS].  When [cycleLow] of
    [f] equals its pre-order number, the stack
    is popped down to [f]; more than one function popped, or a single
    function that calls itself, make a new cycle. *)
Definition leave (w : Walk) (f : nat) : Walk :=
  match preOrder w !! f with
  | Some (Some pre) =>
      if cycleLowOf w f =? pre then
        let (popped, rest) := popTo f (pTop w) in
        let w1 := setTop w rest in
        if (1 <? length popped)%nat || callsItself (data w) f
        then setData w1 (newCycle (data w1) f popped)
        else w1
      else w
  | _ => w
  end.

(** Modelled from the spec: [void TraceFunction::cycleDFS(int d,
    int& pNo, TraceFunction** pTop)], declared in the header without a
    body; steps 2 to 5 of the cycle detection for the function [f].
    The depth of the recursion is bounded by [fuel]. *)
Fixpoint cycleDFS (fuel : nat) (f : nat) (w : Walk) : option Walk :=
  match fuel with
  | O => None
  | S fuel' =>
      match preOrder w !! f with
      | Some None =>
          match getFunction (data w) f with
          | Some fn =>
              match visitCalls (cycleDFS fuel') f (calledFunctions fn)
                               (enter w f) with
              | Some w' => Some (leave w' f)
              | None => None
              end
          | None => Some w
          end
      | _ => Some w
      end
  end.

(** Modelled from the spec: the loop of [updateFunctionCycles()] over
    the functions, in the order of the function map. *)
Fixpoint visitAll (fuel : nat) (fs : list nat) (w : Walk) : option Walk :=
  match fs with
  | [] => Some w
  | f :: rest =>
      match cycleDFS fuel f w with
      | Some w' => visitAll fuel rest w'
      | None => None
      end
  end.

(** Modelled from the spec: step 1 of [updateFunctionCycles()].
    [cycleReset()] on every function; the cycles of an earlier run are
    dropped and the cycle numbers start again. *)
Definition resetAll (d : TraceData.t) : TraceData.t :=
  setFunctionCycles
    (setFunctionMap d
       ((fun kf => (fst kf, cycleReset (snd kf))) <$> _functionMap d))
    [] 0.

(** Modelled from the spec: [void TraceData::updateFunctionCycles()],
    declared in the header without a body.  A visit of a function nests
    visits of functions that are not visited yet only, so the number of
    functions bounds the depth of the recursion; [None] if it did
    not. *)
Definition updateFunctionCycles (d : TraceData.t) : option TraceData.t :=
  let n := length (_functionMap d) in
  let w0 := {| data := setInFunctionCycleUpdate (resetAll d) true;
               pNo := 0;
               pTop := [];
               preOrder := replicate n None |} in
  match visitAll (S n) (seq 0 n) w0 with
  | Some w => Some (setInFunctionCycleUpdate (data w) false)
  | None => None
  end.

(** Modelled from the spec: [int TraceCall::inCycle()], declared in the
    header without a body.  The cycle number if both ends of the call
    are in the same cycle, 0 otherwise. *)
Definition inCycle (d : TraceData.t) (call : TraceCall.t) : Z :=
  match getFunction d (TraceCall._caller call),
        getFunction d (TraceCall._called call) with
  | Some f, Some g =>
      match _cycle f, _cycle g with
      | Some c, Some c' =>
          if Nat.eqb c c'
          then from_option TraceFunctionCycle.cycleNo 0
                           (_functionCycles d !! c)
          else 0
      | _, _ => 0
      end
  | _, _ => 0
  end.

(** *** What the cycle detection maintains *)

(** A function whose cycle pointer is set is listed as a member of the
    cycle it points to. *)
Definition membersConsistent (d : TraceData.t) : Prop :=
  forall f fn c,
    getFunction d f = Some fn -> _cycle fn = Some c ->
    exists cy, _functionCycles d !! c = Some cy /\
               f ∈ TraceFunctionCycle.members cy.

Fixpoint countUnvisited (pre : list (option Z)) : nat :=
  match pre with
  | [] => 0
  | None :: r => S (countUnvisited r)
  | Some _ :: r => countUnvisited r
  end.

End CycleDetection.

(** ** Example data *)

Module Scenario.

(** The cost vector whose used prefix holds the counters [l]. *)
Definition costVector (l : list Z) : TraceCost.t :=
  TraceCost.mk false (aofList MaxRealSlots 0 l) (Z.of_nat (length l)).

Definition cost7 : TraceCost.t := costVector [7].

(** The sub-mapping [2,0,1] of three real types. *)
Definition sm201 : TraceSubMapping.t :=
  TraceSubMapping.mk 3 InvalidIndex false
    (aofList MaxRealSlots 0 [2; 0; 1])
    (aofList MaxRealSlots InvalidIndex []).

(** The real cost type Ir, at real index 0. *)
Definition typeIr : TraceCostType.t :=
  TraceCostType.mk (QString.str "Ir") (QString.str "Instruction Fetch")
    QString.null false false (afill MaxRealSlots 0) 0.

(** Two parts, one real type: the totals of part A are 100, those of
    part B are 50, both parts are active. *)
Definition partA : TracePart.t :=
  TracePart.mk (QString.str "cachegrind.out.1") 1 true (costVector [100]).
Definition partB : TracePart.t :=
  TracePart.mk (QString.str "cachegrind.out.2") 2 true (costVector [50]).

Definition dataAB : TraceData.t :=
  TraceData.mk (TraceCost.mk true (afill MaxRealSlots 0) 0)
    [partA; partB] [] [] [] [] [] 0 false.

(** Two functions named process in different objects, with Ir = 100 and
    Ir = 250; the first one has a line 10 and a call to the second. *)
Definition processA : TraceFunction.t :=
  TraceFunction.mk "process" 0 0 0 (costVector [100])
    [TraceCall.mk 0 1 "process => process" (costVector [30])]
    [TraceLine.mk 10 "10" (costVector [60])]
    [TraceInstr.mk 4096 "0x1000" (costVector [60])]
    None 0.
Definition processB : TraceFunction.t :=
  TraceFunction.mk "process" 0 0 1 (costVector [250]) [] [] [] None 0.

Definition dataProcess : TraceData.t :=
  TraceData.mk (TraceCost.mk true (afill MaxRealSlots 0) 0) []
    [("liba.so", TraceCostItem.mk "liba.so" (costVector [100]));
     ("libb.so", TraceCostItem.mk "libb.so" (costVector [250]))]
    [("(global)", TraceCostItem.mk "(global)" (costVector [350]))]
    [("a.c", TraceCostItem.mk "a.c" (costVector [350]))]
    [("process a.c liba.so", processA); ("process a.c libb.so", processB)]
    [] 0 false.

(** The mapping with the real types l1rm and l2rm and virtual types. *)
Definition realNamed (name : string) (idx : Z) : TraceCostType.t :=
  TraceCostType.mk (QString.str name) (QString.str name) QString.null
    false false (afill MaxRealSlots 0) idx.

Definition virtualNamed (name formula : string) : TraceCostType.t :=
  TraceCostType.mk (QString.str name) (QString.str name)
    (QString.str formula) false false (afill MaxRealSlots 0) InvalidIndex.

(** A virtual type that is not parsed yet. *)
Definition unparsed (name formula : string) : TraceCostMapping.VirtualType :=
  TraceCostMapping.mkVirtual (virtualNamed name formula) 0.


(** RM = l1rm + foo, with foo undefined *)
Definition mappingFoo : TraceCostMapping.t :=
  TraceCostMapping.mk [realNamed "l1rm" 0; realNamed "l2rm" 1]
    [unparsed "RM" "l1rm + foo"].

(** A = l1rm + B, B = 2*A: a reference cycle *)
Definition mappingCycle : TraceCostMapping.t :=
  TraceCostMapping.mk [realNamed "l1rm" 0; realNamed "l2rm" 1]
    [unparsed "A" "l1rm + B"; unparsed "B" "2*A"].

(** RM = l1rm + * l2rm: a syntax error *)
Definition mappingSyntax : TraceCostMapping.t :=
  TraceCostMapping.mk [realNamed "l1rm" 0; realNamed "l2rm" 1]
    [unparsed "RM" "l1rm + * l2rm"].

(** T = 2*RM - l2rm over RM = l1rm + l2rm: nested virtual types *)
Definition mappingNested : TraceCostMapping.t :=
  TraceCostMapping.mk [realNamed "l1rm" 0; realNamed "l2rm" 1]
    [unparsed "RM" "l1rm + l2rm"; unparsed "T" "2*RM - l2rm"].

(** W = 2*Ir + 10*Dr - 1: a formula with a constant term *)
Definition mappingWeighted : TraceCostMapping.t :=
  TraceCostMapping.mk [realNamed "Ir" 0; realNamed "Dr" 1]
    [unparsed "W" "2*Ir + 10*Dr - 1"].

(** U = 3*K + 1 over K = Ir + 2: constants of nested virtual types *)
Definition mappingOffsets : TraceCostMapping.t :=
  TraceCostMapping.mk [realNamed "Ir" 0; realNamed "Dr" 1]
    [unparsed "K" "Ir + 2"; unparsed "U" "3*K + 1"].

(** C = 1 + foo, with foo undefined, after a constant term *)
Definition mappingConstFoo : TraceCostMapping.t :=
  TraceCostMapping.mk [realNamed "l1rm" 0; realNamed "l2rm" 1]
    [unparsed "C" "1 + foo"].

(** A = 1 + A: a type that refers to itself *)
Definition mappingSelf : TraceCostMapping.t :=
  TraceCostMapping.mk [realNamed "l1rm" 0; realNamed "l2rm" 1]
    [unparsed "A" "1 + A"].

(** A cost item with l1rm = 3 and l2rm = 7. *)
Definition cost37 : TraceCost.t := costVector [3; 7].

(** Call graphs: a function is given by its name and the functions it
    calls. *)
Definition fnCalling (self : nat) (name : string) (called : list nat)
  : TraceFunction.t :=
  TraceFunction.mk name 0 0 0 (costVector [])
    ((fun g => TraceCall.mk self g name (costVector [])) <$> called)
    [] [] None 0.

Definition dataOf (fns : list (string * TraceFunction.t)) : TraceData.t :=
  TraceData.mk (TraceCost.mk true (afill MaxRealSlots 0) 0) []
    [] [] [] fns [] 0 false.

(** Recursion: main calls main. *)
Definition dataMain : TraceData.t :=
  dataOf [("main", fnCalling 0 "main" [0%nat])].

(** Mutual recursion: a calls b and d, b calls c, c calls a. *)
Definition dataABCD : TraceData.t :=
  dataOf [("a", fnCalling 0 "a" [1; 3]%nat);
          ("b", fnCalling 1 "b" [2]%nat);
          ("c", fnCalling 2 "c" [0]%nat);
          ("d", fnCalling 3 "d" [])].

End Scenario.

(** ** SubCost: comparisons with integers, and [+=] *)

Module SubCostOps.
Import MachInt SubCost.

(** The values of the C++ types [unsigned] and [uint64]. *)
Definition is_unsigned (i : Z) : Prop := 0 <= i < 2 ^ 32.
Definition is_uint64 (i : Z) : Prop := 0 <= i < 2 ^ 64.

(** A counter holds a 64-bit value. *)
Definition valid (s : t) : Prop := is_uint64 (v s).

(** [bool operator==(unsigned i) const { return v == i; }] *)
Definition eq_unsigned (s : t) (i : Z) : bool := v s =? i.

(** [bool operator<(unsigned i) const { return v < i; }] *)
Definition lt_unsigned (s : t) (i : Z) : bool := v s <? i.

(** [bool operator<(int i) const { return v < (unsigned)i; }] *)
Definition lt_int (s : t) (i : Z) : bool := v s <? to_unsigned i.

(** [bool operator>(unsigned i) const { return v > i; }] *)
Definition gt_unsigned (s : t) (i : Z) : bool := v s >? i.

(** [bool operator>(int i) const { return v > (unsigned)i; }] *)
Definition gt_int (s : t) (i : Z) : bool := v s >? to_unsigned i.

(** [s += c] for two counters: both are taken as [uint64&] through
    [operator uint64&() { return v; }], and the sum is that of
    [uint64]. *)
Definition plusAssign (s c : t) : t := {| v := add64 (v s) (v c) |}.

End SubCostOps.

(** ** TraceJumpCost: cost of a (conditional) jump *)

Module TraceJumpCost.
Import SubCost SubCostOps.

(** [SubCost _executedCount, _followedCount;] *)
Record t : Type := mk {
  _executedCount : SubCost.t;
  _followedCount : SubCost.t
}.

(** [void addFollowedCount(SubCost c) { _followedCount += c; }] *)
Definition addFollowedCount (j : t) (c : SubCost.t) : t :=
  {| _executedCount := _executedCount j;
     _followedCount := plusAssign (_followedCount j) c |}.

(** [void addExecutedCount(SubCost c) { _executedCount += c; }] *)
Definition addExecutedCount (j : t) (c : SubCost.t) : t :=
  {| _executedCount := plusAssign (_executedCount j) c;
     _followedCount := _followedCount j |}.

(** One call of the list [calls]: [inl c] for [addFollowedCount(c)],
    [inr c] for [addExecutedCount(c)]. *)
Definition addCount (j : t) (call : SubCost.t + SubCost.t) : t :=
  match call with
  | inl c => addFollowedCount j c
  | inr c => addExecutedCount j c
  end.

(** The counts added by the calls of either kind, as numbers. *)
Definition followedSum (calls : list (SubCost.t + SubCost.t)) : Z :=
  ActiveSum.zsum
    ((fun call => match call with inl c => v c | inr _ => 0 end) <$> calls).

Definition executedSum (calls : list (SubCost.t + SubCost.t)) : Z :=
  ActiveSum.zsum
    ((fun call => match call with inl _ => 0 | inr c => v c end) <$> calls).

End TraceJumpCost.

(** ** TraceSubMapping: the stored indexes *)

Module TraceSubMappingInv.
Import TraceSubMapping.

(** The used slots of [_realIndex] hold real indexes, that is indexes in
    [0 .. MaxRealIndex-1]. *)
Definition entries_ok (sm : t) : Prop :=
  forall i r, 0 <= i < _count sm -> aget (_realIndex sm) i = Some r ->
              0 <= r < MaxRealIndex.

End TraceSubMappingInv.

(** ** TracePartFunction: the heads of the lists of fix costs *)

Module TracePartFunction.

(** [FixCost* _firstFixCost; FixJump* _firstFixJump;] A pointer is the
    number of the object it points to, [None] for the null pointer. *)
Record t : Type := mk {
  _firstFixCost : option nat;
  _firstFixJump : option nat
}.

(** [FixCost* setFirstFixCost(FixCost* fc)
      { FixCost* t = _firstFixCost; _firstFixCost = fc; return t; }] *)
Definition setFirstFixCost (pf : t) (fc : option nat) : t * option nat :=
  ({| _firstFixCost := fc; _firstFixJump := _firstFixJump pf |},
   _firstFixCost pf).

(** [FixCost* firstFixCost() const { return _firstFixCost; }] *)
Definition firstFixCost (pf : t) : option nat := _firstFixCost pf.

(** [FixJump* setFirstFixJump(FixJump* fj)
      { FixJump* t = _firstFixJump; _firstFixJump = fj; return t; }] *)
Definition setFirstFixJump (pf : t) (fj : option nat) : t * option nat :=
  ({| _firstFixCost := _firstFixCost pf; _firstFixJump := fj |},
   _firstFixJump pf).

(** [FixJump* firstFixJump() const { return _firstFixJump; }] *)
Definition firstFixJump (pf : t) : option nat := _firstFixJump pf.

(** Calls of [setFirstFixCost], one after the other, with the pointers
    [fcs]: the object after the calls and what each call returned. *)
Fixpoint setFirstFixCosts (pf : t) (fcs : list (option nat))
  : t * list (option nat) :=
  match fcs with
  | [] => (pf, [])
  | fc :: rest =>
      let (pf1, old) := setFirstFixCost pf fc in
      let (pf2, olds) := setFirstFixCosts pf1 rest in
      (pf2, old :: olds)
  end.

End TracePartFunction.

(** ** More example data *)

Module Samples.

(** The sub-mapping [2,0,1] of the real types 0 .. 4, with the chain of
    the unused indexes 3 and 4. *)
Definition sm201unused : TraceSubMapping.t :=
  TraceSubMapping.mk 3 3 false
    (aofList MaxRealSlots 0 [2; 0; 1])
    (aofList MaxRealSlots InvalidIndex
       [InvalidIndex; InvalidIndex; InvalidIndex; 4; InvalidIndex]).

(** A jump that was executed 10 times and followed 4 times. *)
Definition jump10of4 : TraceJumpCost.t :=
  TraceJumpCost.mk (SubCost.of_int 10) (SubCost.of_int 4).

End Samples.

(** * Properties *)

(** ** Machine integers *)

Module MachIntFacts.
Import MachInt.

Lemma to_uint64_range i : 0 <= to_uint64 i < 2 ^ 64.
Proof. unfold to_uint64. apply Z.mod_pos_bound. lia. Qed.

Lemma to_unsigned_range i : 0 <= to_unsigned i < 2 ^ 32.
Proof. unfold to_unsigned. apply Z.mod_pos_bound. lia. Qed.

Lemma to_uint64_small i : 0 <= i < 2 ^ 64 -> to_uint64 i = i.
Proof. intros H. unfold to_uint64. now apply Z.mod_small. Qed.

Lemma to_uint64_idem i : to_uint64 (to_uint64 i) = to_uint64 i.
Proof. apply to_uint64_small, to_uint64_range. Qed.

Lemma to_unsigned_neg i : - 2 ^ 32 <= i < 0 -> to_unsigned i = i + 2 ^ 32.
Proof.
  intros H. unfold to_unsigned.
  rewrite <- (Z.mod_add i 1 (2 ^ 32)) by lia.
  apply Z.mod_small. lia.
Qed.

Lemma to_uint64_neg i : - 2 ^ 64 <= i < 0 -> to_uint64 i = i + 2 ^ 64.
Proof.
  intros H. unfold to_uint64.
  rewrite <- (Z.mod_add i 1 (2 ^ 64)) by lia.
  apply Z.mod_small. lia.
Qed.

Lemma to_uint64_add_l a b : to_uint64 (to_uint64 a + b) = to_uint64 (a + b).
Proof. unfold to_uint64. apply Zplus_mod_idemp_l. Qed.

Lemma to_uint64_add_r a b : to_uint64 (a + to_uint64 b) = to_uint64 (a + b).
Proof. unfold to_uint64. apply Zplus_mod_idemp_r. Qed.

End MachIntFacts.

(** ** SubCost: construction from [int] against assignment of [int] *)

Module SubCostFacts.
Import MachInt MachIntFacts SubCost.

Lemma of_int_nonneg i : 0 <= i <= int_max -> v (of_int i) = i.
Proof.
  unfold int_max. intros H. cbn. unfold to_unsigned.
  rewrite Z.mod_small by lia. apply to_uint64_small. lia.
Qed.

Lemma assign_int_nonneg s i : 0 <= i <= int_max -> v (assign_int s i) = i.
Proof. unfold int_max. intros H. cbn. apply to_uint64_small. lia. Qed.

Lemma of_int_neg i : int_min <= i < 0 -> v (of_int i) = i + 2 ^ 32.
Proof.
  unfold int_min. intros H. cbn.
  rewrite to_unsigned_neg by lia. apply to_uint64_small. lia.
Qed.

Lemma assign_int_neg s i : int_min <= i < 0 -> v (assign_int s i) = i + 2 ^ 64.
Proof. unfold int_min. intros H. cbn. apply to_uint64_neg. lia. Qed.

(** The upper half of the counter: clear after construction, all ones
    after assignment (sign extension). *)
Lemma of_int_high_bits i k :
  32 <= k -> Z.testbit (v (of_int i)) k = false.
Proof.
  intros Hk. cbn. unfold to_uint64.
  rewrite Z.mod_small.
  - unfold to_unsigned. apply Z.mod_pow2_bits_high. lia.
  - pose proof (to_unsigned_range i). lia.
Qed.

Lemma assign_int_high_bits s i k :
  int_min <= i < 0 -> 32 <= k < 64 -> Z.testbit (v (assign_int s i)) k = true.
Proof.
  unfold int_min. intros Hi Hk. cbn. unfold to_uint64.
  rewrite Z.mod_pow2_bits_low by lia.
  apply Z.bits_iff_neg; [|lia].
  apply Z.log2_lt_pow2; [lia|].
  assert (2 ^ 31 < 2 ^ k) by (apply Z.pow_lt_mono_r; lia). lia.
Qed.

(** C9.  For a negative [int] [i], [SubCost(i)] holds the 32-bit unsigned
    conversion of [i], that is [i mod 2^32] (= [i + 2^32]), while
    [s = i] holds the sign extension of [i] to 64 bits, that is
    [i mod 2^64] (= [i + 2^64], bits 32..63 all set); the two values
    differ. *)
Theorem SubCost_int_ctor_vs_assign (s : t) (i : Z) :
  int_min <= i < 0 ->
  v (of_int i) = i mod 2 ^ 32 /\
  v (of_int i) = i + 2 ^ 32 /\
  v (assign_int s i) = i mod 2 ^ 64 /\
  v (assign_int s i) = i + 2 ^ 64 /\
  (forall k, 32 <= k < 64 ->
     Z.testbit (v (of_int i)) k = false /\
     Z.testbit (v (assign_int s i)) k = true) /\
  v (of_int i) <> v (assign_int s i).
Proof.
  intros Hi.
  pose proof (of_int_neg i Hi) as Hc.
  pose proof (assign_int_neg s i Hi) as Ha.
  split; [|split; [|split; [|split; [|split]]]].
  - rewrite Hc. symmetry. apply to_unsigned_neg. unfold int_min in Hi. lia.
  - exact Hc.
  - reflexivity.
  - exact Ha.
  - intros k Hk. split.
    + apply of_int_high_bits. lia.
    + now apply assign_int_high_bits.
  - rewrite Hc, Ha. lia.
Qed.

Lemma SubCost_int_ctor_vs_assign_minus_one :
  int_min <= -1 < 0 /\
  v (of_int (-1)) = 2 ^ 32 - 1 /\
  v (assign_int (of_int 0) (-1)) = 2 ^ 64 - 1.
Proof.
  assert (H : int_min <= -1 < 0) by (unfold int_min; lia).
  destruct (SubCost_int_ctor_vs_assign (of_int 0) (-1) H)
    as (_ & Hc & _ & Ha & _).
  split; [exact H|]. split.
  - rewrite Hc. reflexivity.
  - rewrite Ha. reflexivity.
Defined.

End SubCostFacts.

(** ** C arrays *)

Module CArrayFacts.

Lemma aget_in_range {A n} (a : carray A n) (i : Z) :
  0 <= i < Z.of_nat n -> exists x, aget a i = Some x.
Proof.
  intros Hi. unfold aget, in_bounds.
  replace (0 <=? i) with true by (symmetry; apply Z.leb_le; lia).
  replace (i <? Z.of_nat n) with true by (symmetry; apply Z.ltb_lt; lia).
  cbn. apply lookup_lt_is_Some_2. rewrite (elems_len a). lia.
Qed.

Lemma aget_outside {A n} (a : carray A n) (i : Z) :
  i < 0 \/ Z.of_nat n <= i -> aget a i = None.
Proof.
  intros Hi. unfold aget, in_bounds.
  destruct (Z.leb_spec 0 i); destruct (Z.ltb_spec i (Z.of_nat n));
    cbn; try reflexivity; lia.
Qed.

Lemma aget_Some_elems {A n} (a : carray A n) (i : Z) (x : A) :
  aget a i = Some x ->
  0 <= i < Z.of_nat n /\ elems a !! Z.to_nat i = Some x.
Proof.
  unfold aget, in_bounds.
  destruct (Z.leb_spec 0 i); destruct (Z.ltb_spec i (Z.of_nat n));
    cbn; intros Hx; try discriminate. split; [lia | exact Hx].
Qed.

End CArrayFacts.

(** ** TraceCostType: real types *)

Module TraceCostTypeFacts.
Import TraceCostType.

Lemma isEmpty_chars (q : QString.t) :
  QString.isEmpty q = true <-> QString.chars q = EmptyString.
Proof.
  destruct q as [|s]; cbn.
  - split; reflexivity.
  - destruct s; cbn; split; intros H; try reflexivity; discriminate.
Qed.

(** C7.  [isReal()] answers true exactly when the formula of the cost
    type has no characters (the null string and the string of length
    zero alike). *)
Theorem isReal_iff_formula_empty (ct : t) :
  isReal ct = true <-> QString.chars (formula ct) = EmptyString.
Proof. unfold isReal, formula. apply isEmpty_chars. Qed.

End TraceCostTypeFacts.

(** ** TraceSubMapping: guarded table reads *)

Module TraceSubMappingFacts.
Import CArrayFacts TraceSubMapping.

Lemma MaxRealSlots_eq : Z.of_nat MaxRealSlots = MaxRealIndex.
Proof. reflexivity. Qed.

Lemma realIndex_out_of_range (sm : t) (i : Z) :
  i < 0 \/ i >= count sm -> realIndex sm i = Some InvalidIndex.
Proof.
  intros Hi. unfold realIndex, count in *.
  destruct (Z.ltb_spec i 0); [reflexivity|].
  destruct (Z.geb_spec i (_count sm)); [reflexivity|]. lia.
Qed.

Lemma realIndex_in_range (sm : t) (i : Z) :
  0 <= i < count sm -> realIndex sm i = aget (_realIndex sm) i.
Proof.
  intros Hi. unfold realIndex, count in *.
  destruct (Z.ltb_spec i 0); [lia|].
  destruct (Z.geb_spec i (_count sm)); [lia|]. reflexivity.
Qed.

(** C6.  [realIndex(i)] is the sentinel [InvalidIndex] (= -1) whenever
    [i < 0] or [i >= count()], without any read of the table; otherwise
    it is the index stored in slot [i] of the table, and as long as
    [_count] is within the capacity of the table no call reads outside
    it. *)
Theorem realIndex_sentinel_or_stored (sm : t) (i : Z) :
  InvalidIndex = -1 /\
  (i < 0 \/ i >= count sm -> realIndex sm i = Some InvalidIndex) /\
  (count_ok sm -> 0 <= i < count sm ->
     exists r, elems (_realIndex sm) !! Z.to_nat i = Some r /\
               realIndex sm i = Some r) /\
  (count_ok sm -> realIndex sm i <> None).
Proof.
  split; [reflexivity|].
  split; [apply realIndex_out_of_range|].
  assert (Hin : count_ok sm -> 0 <= i < count sm ->
                exists r, elems (_realIndex sm) !! Z.to_nat i = Some r /\
                          realIndex sm i = Some r).
  { intros [Hlo Hhi] Hi. rewrite realIndex_in_range by exact Hi.
    destruct (aget_in_range (_realIndex sm) i) as [r Hr].
    - rewrite MaxRealSlots_eq. unfold count in Hi. lia.
    - exists r. split; [|exact Hr]. now apply aget_Some_elems in Hr. }
  split; [exact Hin|]. intros Hok.
  destruct (Z.lt_ge_cases i 0) as [Hneg|Hpos].
  - rewrite realIndex_out_of_range by lia. discriminate.
  - destruct (Z.lt_ge_cases i (count sm)) as [Hlt|Hge].
    + destruct (Hin Hok) as (r & _ & Hr); [lia|]. rewrite Hr. discriminate.
    + rewrite realIndex_out_of_range by lia. discriminate.
Qed.

Lemma nextUnused_out_of_range (sm : t) (i : Z) :
  i < 0 \/ i >= MaxRealIndex -> nextUnused sm i = Some InvalidIndex.
Proof.
  intros Hi. unfold nextUnused.
  destruct (Z.ltb_spec i 0); [reflexivity|].
  destruct (Z.geb_spec i MaxRealIndex); [reflexivity|]. lia.
Qed.

Lemma nextUnused_reads_inside (sm : t) (i : Z) :
  exists j, nextUnused sm i = Some j.
Proof.
  unfold nextUnused.
  destruct (Z.ltb_spec i 0); [eauto|].
  destruct (Z.geb_spec i MaxRealIndex); [eauto|]. cbn.
  apply aget_in_range. rewrite MaxRealSlots_eq. lia.
Qed.

Lemma unusedFrom_reads_inside (fuel : nat) (sm : t) (i : Z) :
  exists l, unusedFrom fuel sm i = Some l.
Proof.
  revert i. induction fuel as [|fuel IH]; intros i; cbn; [eauto|].
  destruct (i =? InvalidIndex); [eauto|].
  destruct (nextUnused_reads_inside sm i) as [j ->].
  destruct (IH j) as [l ->]. eauto.
Qed.

(** C10.  [nextUnused(i)] is [InvalidIndex] whenever [i < 0] or
    [i >= MaxRealIndex] (= 10); hence neither a single call nor the loop
    [for(i = firstUnused(); i != InvalidIndex; i = nextUnused(i))], run
    for any number of rounds, reads outside the table [_nextUnused]. *)
Theorem nextUnused_never_outside_table (sm : t) (i : Z) :
  MaxRealIndex = 10 /\
  (i < 0 \/ i >= MaxRealIndex -> nextUnused sm i = Some InvalidIndex) /\
  nextUnused sm i <> None /\
  (forall fuel, unusedIndexes fuel sm <> None).
Proof.
  split; [reflexivity|]. split; [apply nextUnused_out_of_range|]. split.
  - destruct (nextUnused_reads_inside sm i) as [j ->]. discriminate.
  - intros fuel. unfold unusedIndexes.
    destruct (unusedFrom_reads_inside fuel sm (firstUnused sm)) as [l ->].
    discriminate.
Qed.

End TraceSubMappingFacts.

(** ** TraceCost: slot-wise addition and difference *)

Module TraceCostFacts.
Import MachInt MachIntFacts SubCost CArrayFacts TraceCost.

Lemma aget_aimap {A n} (f : Z -> A -> A) (a : carray A n) (i : Z) :
  aget (aimap f a) i = f i <$> aget a i.
Proof.
  unfold aget. destruct (in_bounds n i) eqn:Hb; [|reflexivity].
  cbn. rewrite list_lookup_imap.
  unfold in_bounds in Hb. apply andb_true_iff in Hb as [Hlo _].
  apply Z.leb_le in Hlo. rewrite Z2Nat.id by exact Hlo. reflexivity.
Qed.

Lemma aget_afill {A} (n : nat) (x : A) (i : Z) :
  aget (afill n x) i = if in_bounds n i then Some x else None.
Proof.
  unfold aget. destruct (in_bounds n i) eqn:Hb; [|reflexivity].
  cbn. apply lookup_replicate_2.
  unfold in_bounds in Hb. apply andb_true_iff in Hb as [Hlo Hhi].
  apply Z.leb_le in Hlo. apply Z.ltb_lt in Hhi. lia.
Qed.

Lemma subCost_unused (x : t) (idx : Z) :
  idx < 0 \/ _count x <= idx -> subCost x idx = 0.
Proof.
  intros H. unfold subCost.
  destruct (Z.leb_spec 0 idx); destruct (Z.ltb_spec idx (_count x));
    cbn; try reflexivity; lia.
Qed.


Lemma subCost_clear (x : t) (idx : Z) : subCost (clear x) idx = 0.
Proof. apply subCost_unused. cbn. lia. Qed.

(** A slot beyond the table reads as zero whatever [_count] says. *)
Lemma subCost_beyond_table (x : t) (idx : Z) :
  MaxRealIndex <= idx -> subCost x idx = 0.
Proof.
  intros H. unfold subCost.
  destruct ((0 <=? idx) && (idx <? _count x)); [|reflexivity].
  rewrite aget_outside; [reflexivity|]. right. exact H.
Qed.

Lemma subCost_addCost (x item : t) (idx : Z) :
  subCost (addCost x item) idx = add64 (subCost x idx) (subCost item idx).
Proof.
  destruct (Z.lt_ge_cases idx MaxRealIndex) as [Hin|Hout].
  - destruct (Z.lt_ge_cases idx 0) as [Hneg|Hpos].
    + rewrite !subCost_unused by (left; exact Hneg). reflexivity.
    + destruct (Z.lt_ge_cases idx (Z.max (_count x) (_count item)))
        as [Hused|Hun].
      * unfold subCost at 1. cbn [addCost _count _cost].
        replace (0 <=? idx) with true by (symmetry; apply Z.leb_le; lia).
        replace (idx <? Z.max (_count x) (_count item)) with true
          by (symmetry; apply Z.ltb_lt; lia).
        cbn [andb]. rewrite aget_aimap.
        destruct (aget_in_range (_cost x) idx) as [c ->]; [|reflexivity].
        change (Z.of_nat MaxRealSlots) with MaxRealIndex. lia.
      * rewrite (subCost_unused (addCost x item)) by (right; exact Hun).
        rewrite !subCost_unused by lia. reflexivity.
  - rewrite !subCost_beyond_table by exact Hout. reflexivity.
Qed.


End TraceCostFacts.

(** ** TraceCost::diff saturates at zero *)

Module DiffFacts.
Import MachInt MachIntFacts SubCost TraceCost TraceCostFacts Scenario.





(** A slot that only the subtracted vector uses also reads as zero. *)
Example diff_of_shorter_vector :
  subCost (diff (costVector []) cost7) 0 = 0 /\
  subCost (diff (costVector [0]) cost7) 0 = 0 /\
  subCost (diff (costVector [9; 4]) cost7) 0 = 2 /\
  subCost (diff (costVector [9; 4]) cost7) 1 = 4.
Proof. repeat split; vm_compute; reflexivity. Qed.

End DiffFacts.

(** ** TraceSubMapping: an example *)

Module TraceSubMappingExample.
Import TraceSubMapping TraceSubMappingFacts Scenario.

Lemma realIndex_sentinel_or_stored_sm201 :
  count_ok sm201 /\
  realIndex sm201 1 = Some 0 /\
  realIndex sm201 3 = Some InvalidIndex /\
  realIndex sm201 (-1) = Some InvalidIndex.
Proof.
  assert (H : count_ok sm201) by (unfold count_ok, MaxRealIndex; cbn; lia).
  split; [exact H|].
  destruct (realIndex_sentinel_or_stored sm201 1) as (_ & _ & Hin & _).
  destruct (realIndex_sentinel_or_stored sm201 3) as (_ & Hout & _).
  destruct (realIndex_sentinel_or_stored sm201 (-1)) as (_ & Hneg & _).
  split; [|split].
  - destruct (Hin H) as (r & Hr & ->); [cbn; lia|].
    cbn in Hr. injection Hr as <-. reflexivity.
  - apply Hout. right. cbn. lia.
  - apply Hneg. left. lia.
Defined.

End TraceSubMappingExample.

(** ** TraceData: activation of parts *)

Module ActivationFacts.
Import MachInt MachIntFacts SubCost TraceCostFacts.
Import TracePart TraceData ActiveSum.

Lemma setActive_same (q : TracePart.t) :
  setActive q (_active q) = q.
Proof. destruct q; reflexivity. Qed.

Lemma setActive_twice (q : TracePart.t) (a b : bool) :
  setActive (setActive q a) b = setActive q b.
Proof. reflexivity. Qed.

Lemma subCost_setDirty (x : TraceCost.t) (b : bool) (idx : Z) :
  TraceCost.subCost (setDirty x b) idx = TraceCost.subCost x idx.
Proof. reflexivity. Qed.

Lemma activeParts_cons (q : TracePart.t) (ps : list TracePart.t) :
  activeParts (q :: ps)
  = if _active q then q :: activeParts ps else activeParts ps.
Proof.
  unfold activeParts, isActive. destruct (_active q) eqn:Hq.
  - rewrite filter_cons_True by exact Hq. reflexivity.
  - rewrite filter_cons_False; [reflexivity|]. rewrite Hq. discriminate.
Qed.

Lemma activeTotal_cons (q : TracePart.t) (ps : list TracePart.t) (idx : Z) :
  activeTotal (q :: ps) idx
  = (if _active q then TraceCost.subCost (totals q) idx else 0)
    + activeTotal ps idx.
Proof.
  unfold activeTotal. rewrite activeParts_cons.
  destruct (_active q); reflexivity.
Qed.

(** The loop of [update()] computes the sum over the active parts,
    modulo 2^64. *)
Lemma subCost_fold_active (ps : list TracePart.t) (acc : TraceCost.t)
      (z idx : Z) :
  TraceCost.subCost acc idx = to_uint64 z ->
  TraceCost.subCost
    (fold_left (fun acc p =>
                  if isActive p then TraceCost.addCost acc (totals p)
                  else acc) ps acc) idx
  = to_uint64 (z + activeTotal ps idx).
Proof.
  revert acc z. induction ps as [|q ps IH]; intros acc z Hacc.
  - cbn. rewrite Z.add_0_r. exact Hacc.
  - cbn [fold_left]. rewrite activeTotal_cons. unfold isActive at 2.
    destruct (_active q).
    + rewrite (IH _ (z + TraceCost.subCost (totals q) idx)).
      * f_equal. lia.
      * rewrite subCost_addCost, Hacc. unfold add64.
        apply to_uint64_add_l.
    + rewrite (IH _ z Hacc). f_equal.
Qed.

Lemma subCost_sumActiveParts (x : TraceCost.t) (ps : list TracePart.t)
      (idx : Z) :
  TraceCost.subCost (sumActiveParts x ps) idx
  = to_uint64 (activeTotal ps idx).
Proof.
  unfold sumActiveParts.
  rewrite (subCost_fold_active ps _ 0); [reflexivity|].
  apply subCost_clear.
Qed.

(** A query on dirty data yields the sum over the active parts. *)
Lemma subCost_dirty (d : TraceData.t) (idx : Z) :
  TraceCost._dirty (base d) = true ->
  snd (subCost d idx) = to_uint64 (activeTotal (parts d) idx) /\
  parts (fst (subCost d idx)) = parts d.
Proof.
  intros Hd. unfold subCost, update. rewrite Hd. cbn [fst snd].
  split; [|reflexivity].
  cbn [base setBase]. rewrite subCost_setDirty.
  apply subCost_sumActiveParts.
Qed.

Lemma subCost_cacheValid (d : TraceData.t) (idx : Z) :
  cacheValid d ->
  snd (subCost d idx) = to_uint64 (activeTotal (parts d) idx).
Proof.
  intros Hv. destruct (TraceCost._dirty (base d)) eqn:Hd.
  - now apply subCost_dirty.
  - unfold subCost, update. rewrite Hd. cbn [snd]. now apply Hv.
Qed.

(** The cache stays valid along the protocol: after [update()], after a
    query, and after [invalidateDynamicCost()] whatever was activated
    before. *)
Lemma cacheValid_update (d : TraceData.t) :
  cacheValid d -> cacheValid (update d).
Proof.
  intros Hv. unfold update. destruct (TraceCost._dirty (base d)) eqn:Hd.
  - intros _ idx. cbn [base setBase parts _parts].
    rewrite subCost_setDirty. apply subCost_sumActiveParts.
  - exact Hv.
Qed.

Lemma cacheValid_invalidate (d : TraceData.t) :
  cacheValid (invalidateDynamicCost d).
Proof. intros Hd. cbn in Hd. discriminate. Qed.

Lemma parts_activatePart (d : TraceData.t) (p : nat) (q : TracePart.t)
      (a : bool) :
  parts d !! p = Some q ->
  parts (fst (activatePart d p a)) = <[p := setActive q a]> (parts d).
Proof.
  unfold parts, activatePart. intros ->. reflexivity.
Qed.

(** [activatePart] reports whether the flag changed. *)
Lemma activatePart_changed (d : TraceData.t) (p : nat) (q : TracePart.t)
      (a : bool) :
  parts d !! p = Some q ->
  snd (activatePart d p a) = negb (eqb (_active q) a).
Proof. unfold parts, activatePart. intros ->. reflexivity. Qed.

(** A deactivated part contributes like a removed part. *)
Lemma activeTotal_deactivate (ps : list TracePart.t) (p : nat)
      (q : TracePart.t) (idx : Z) :
  ps !! p = Some q ->
  activeTotal (<[p := setActive q false]> ps) idx
  = activeTotal (delete p ps) idx.
Proof.
  revert p. induction ps as [|r ps IH]; intros [|p] Hp; try discriminate.
  - change (activeTotal (setActive q false :: ps) idx = activeTotal ps idx).
    rewrite activeTotal_cons. reflexivity.
  - cbn in Hp. cbn [list_insert insert delete list_delete].
    change (activeTotal (r :: <[p := setActive q false]> ps) idx
            = activeTotal (r :: delete p ps) idx).
    rewrite !activeTotal_cons, (IH p Hp). reflexivity.
Qed.

Lemma reactivate_restores_parts (ps : list TracePart.t) (p : nat)
      (q : TracePart.t) :
  ps !! p = Some q -> _active q = true ->
  <[p := setActive (setActive q false) true]>
    (<[p := setActive q false]> ps) = ps.
Proof.
  intros Hp Hq. rewrite list_insert_insert_eq, setActive_twice.
  apply list_insert_id. rewrite <- Hq, setActive_same. exact Hp.
Qed.

End ActivationFacts.

Module ActivationTheorem.
Import MachInt MachIntFacts TracePart TraceData ActiveSum ActivationFacts.
Import Scenario.

(** C2.  Let [p] be a part of the data and [t] a real cost type.  After
    [activatePart(p, false)] and [invalidateDynamicCost()],
    [subCost(t)] is the sum (of 64-bit counters) of the totals of the
    remaining active parts.  If [p] was active and the cached cost of
    the data was valid, then after [activatePart(p, true)] and
    [invalidateDynamicCost()], [subCost(t)] is again exactly the value
    it had at the start. *)
Theorem deactivate_then_reactivate
        (d : TraceData.t) (p : nat) (q : TracePart.t)
        (ct : TraceCostType.t) :
  TraceCostType.isReal ct = true ->
  parts d !! p = Some q ->
  let idx := TraceCostType.realIndex ct in
  let r1 :=
    subCostReal (invalidateDynamicCost (fst (activatePart d p false))) ct in
  let r2 :=
    subCostReal
      (invalidateDynamicCost (fst (activatePart (fst r1) p true))) ct in
  snd r1 = to_uint64 (activeTotal (delete p (parts d)) idx) /\
  (isActive q = true -> cacheValid d -> snd r2 = snd (subCostReal d ct)).
Proof.
  intros _ Hp idx r1 r2. subst r1 r2. unfold subCostReal. fold idx.
  set (d1 := invalidateDynamicCost (fst (activatePart d p false))).
  assert (Hparts1 : parts d1 = <[p := setActive q false]> (parts d)).
  { unfold d1. apply (parts_activatePart d p q false Hp). }
  destruct (subCost_dirty d1 idx eq_refl) as [Hv1 Hp1].
  split.
  - rewrite Hv1, Hparts1. f_equal. now apply activeTotal_deactivate.
  - intros Hq Hvalid.
    set (d2 := invalidateDynamicCost
                 (fst (activatePart (fst (subCost d1 idx)) p true))).
    assert (Hlook : parts (fst (subCost d1 idx)) !! p
                    = Some (setActive q false)).
    { rewrite Hp1, Hparts1. apply list_lookup_insert_eq.
      now apply lookup_lt_Some in Hp. }
    assert (Hparts2 : parts d2 = parts d).
    { unfold d2.
      change (parts (fst (activatePart (fst (subCost d1 idx)) p true))
              = parts d).
      rewrite (parts_activatePart _ p _ true Hlook), Hp1, Hparts1.
      now apply reactivate_restores_parts. }
    destruct (subCost_dirty d2 idx eq_refl) as [Hv2 _].
    rewrite Hv2, Hparts2. symmetry. now apply subCost_cacheValid.
Qed.

(** Parts A (100) and B (50): 150 with both active, 100 with B
    deactivated, 150 again with B reactivated. *)
Lemma deactivate_then_reactivate_AB :
  snd (subCostReal dataAB typeIr) = 150 /\
  snd (subCostReal
         (invalidateDynamicCost (fst (activatePart dataAB 1 false)))
         typeIr) = 100 /\
  snd (subCostReal
         (invalidateDynamicCost
            (fst (activatePart
                    (fst (subCostReal
                            (invalidateDynamicCost
                               (fst (activatePart dataAB 1 false)))
                            typeIr))
                    1 true)))
         typeIr) = snd (subCostReal dataAB typeIr).
Proof.
  assert (Hreal : TraceCostType.isReal typeIr = true) by reflexivity.
  assert (Hp : parts dataAB !! 1%nat = Some partB) by reflexivity.
  assert (Hv : cacheValid dataAB) by (intros Hd; discriminate Hd).
  destruct (deactivate_then_reactivate dataAB 1 partB typeIr Hreal Hp)
    as [H1 H2].
  split; [vm_compute; reflexivity|]. split.
  - rewrite H1. vm_compute. reflexivity.
  - apply H2; [reflexivity | exact Hv].
Defined.

End ActivationTheorem.

(** ** TraceData::search: items that need a function as parent *)

Module SearchFacts.
Import TraceItem Search Scenario.

Lemma parentFunction_type (d : TraceData.t) (parent : option ItemRef)
      (fi : nat) (f : TraceFunction.t) :
  parentFunction d parent = Some (fi, f) ->
  exists p, parent = Some p /\ type p = Function.
Proof.
  destruct parent as [[]|]; cbn; intros H; try discriminate.
  eexists. split; reflexivity.
Qed.

(** C8.  A search for an Instr, a Line or a Call whose parent is null or
    is not of type Function returns null, whatever the name, the cost
    type and the contents of the data are. *)
Theorem search_without_function_parent
        (subCostOf : TraceCostType.t -> TraceCost.t -> Z)
        (d : TraceData.t) (t : CostType) (name : string)
        (ct : option TraceCostType.t) (parent : option ItemRef) :
  t = Instr \/ t = Line \/ t = Call ->
  parent = None \/ (exists p, parent = Some p /\ type p <> Function) ->
  search subCostOf d t name ct parent = None.
Proof.
  intros Ht Hparent.
  assert (Hpt : CostType_eqb
                  match parent with
                  | Some p => type p
                  | None => NoCostType
                  end Function = false).
  { destruct Hparent as [-> | (p & -> & Hp)]; [reflexivity|].
    destruct p; cbn in *; try reflexivity. now contradiction Hp. }
  unfold search. destruct Ht as [-> | [-> | ->]]; now rewrite Hpt.
Qed.

Lemma search_without_function_parent_line :
  search realSubCost dataProcess Line "10" (Some typeIr) None = None /\
  search realSubCost dataProcess Line "10" (Some typeIr)
         (Some (ObjectRef 0)) = None /\
  search realSubCost dataProcess Line "10" (Some typeIr)
         (Some (FunctionRef 0)) = Some (LineRef 0 0).
Proof.
  split; [|split].
  - apply search_without_function_parent; [right; left; reflexivity|].
    left. reflexivity.
  - apply search_without_function_parent; [right; left; reflexivity|].
    right. exists (ObjectRef 0). split; [reflexivity | discriminate].
  - reflexivity.
Defined.

(** Under a function as parent the three kinds are found. *)
Example search_under_function :
  search realSubCost dataProcess Instr "0x1000" (Some typeIr)
         (Some (FunctionRef 0)) = Some (InstrRef 0 0) /\
  search realSubCost dataProcess Call "process => process" None
         (Some (FunctionRef 0)) = Some (CallRef 0 0).
Proof. split; reflexivity. Qed.

(** The function with the highest sub cost wins; a parent object
    restricts the search. *)
Example search_function_process :
  search realSubCost dataProcess Function "process" (Some typeIr) None
  = Some (FunctionRef 1) /\
  search realSubCost dataProcess Function "process" (Some typeIr)
         (Some (ObjectRef 0)) = Some (FunctionRef 0).
Proof. split; reflexivity. Qed.

End SearchFacts.

(** ** Formulas: what parsing changes, and that it returns *)

Module FormulaFacts.
Import MachInt CArrayFacts Formula TraceCostMapping.

Lemma stable_refl (vt : VirtualType) : stable vt vt.
Proof. unfold stable. auto. Qed.

Lemma stable_trans (a b c : VirtualType) :
  stable a b -> stable b c -> stable a c.
Proof.
  intros (Hi1 & Hp1 & Hf1 & Hn1) (Hi2 & Hp2 & Hf2 & Hn2). unfold stable.
  split; [congruence|]. split; [auto|]. split; [|congruence].
  intros Ha. rewrite Hf2, Hf1; auto. rewrite Hf1; auto.
Qed.

Lemma ext_refl (m : t) : ext m m.
Proof.
  split; [reflexivity|].
  apply Forall2_same_length_lookup_2; [reflexivity|].
  intros i x y Hx Hy. rewrite Hx in Hy. injection Hy as <-.
  apply stable_refl.
Qed.

Lemma ext_trans (m1 m2 m3 : t) : ext m1 m2 -> ext m2 m3 -> ext m1 m3.
Proof.
  intros [Hr1 Hv1] [Hr2 Hv2]. split; [congruence|].
  eapply Forall2_trans; [|exact Hv1|exact Hv2]. apply stable_trans.
Qed.

Lemma virtualEntry_Some (m : t) (i : Z) (vt : VirtualType) :
  virtualEntry m i = Some vt ->
  MaxRealIndex <= i /\ _virtual m !! virtualSlot i = Some vt.
Proof.
  unfold virtualEntry. destruct (Z.leb_spec MaxRealIndex i);
    [auto|discriminate].
Qed.

Lemma virtualEntry_lookup (m : t) (i : Z) :
  MaxRealIndex <= i -> virtualEntry m i = _virtual m !! virtualSlot i.
Proof.
  intros Hi. unfold virtualEntry.
  destruct (Z.leb_spec MaxRealIndex i); [reflexivity|lia].
Qed.

Lemma virtualType_Some (m : t) (i : Z) (ct : TraceCostType.t) :
  virtualType m i = Some ct ->
  exists vt, virtualEntry m i = Some vt /\ costType vt = ct.
Proof.
  unfold virtualType. destruct (virtualEntry m i) as [vt|]; [|discriminate].
  intros [= <-]. eauto.
Qed.

(** A type that is being parsed is the same after a call. *)
Lemma ext_inParsing (m m' : t) (i : Z) (vt : VirtualType) :
  ext m m' -> virtualEntry m i = Some vt -> inParsing vt = true ->
  virtualEntry m' i = Some vt.
Proof.
  intros [_ Hv] Hvt Hin. apply virtualEntry_Some in Hvt as [Hi Hl].
  rewrite virtualEntry_lookup by exact Hi.
  destruct (Forall2_lookup_l _ _ _ _ _ Hv Hl) as (y & Hy & Hst).
  destruct Hst as (_ & _ & Hfix & _). rewrite Hy, (Hfix Hin). reflexivity.
Qed.

(** *** Looking a name up *)

Lemma findName_found (name : string) (l : list TraceCostType.t) :
  forall s k, findName name l s = Some k ->
    s <= k < s + Z.of_nat (length l) /\
    exists ct, l !! Z.to_nat (k - s) = Some ct.
Proof.
  induction l as [|ct l IH]; intros s k; cbn [findName]; [discriminate|].
  destruct (String.eqb _ name).
  - intros [= <-]. cbn [length]. split; [lia|].
    rewrite Z.sub_diag. cbn. eauto.
  - intros Hf. destruct (IH _ _ Hf) as [Hr (c & Hc)]. cbn [length].
    split; [lia|]. exists c.
    replace (Z.to_nat (k - s)) with (S (Z.to_nat (k - (s + 1)))) by lia.
    exact Hc.
Qed.

Lemma findName_names (name : string) (l l' : list TraceCostType.t) :
  Forall2 (fun a b => TraceCostType._name b = TraceCostType._name a) l l' ->
  forall s, findName name l' s = findName name l s.
Proof.
  induction 1 as [|a b l l' Hab _ IH]; intros s; cbn [findName];
    [reflexivity|].
  unfold TraceCostType.name. rewrite Hab, IH. reflexivity.
Qed.

(** The index of a name is [InvalidIndex], or a real index, or the index
    of a virtual type of the mapping. *)
Lemma index_cases (m : t) (name : string) :
  index m name = InvalidIndex \/
  0 <= index m name < MaxRealIndex \/
  (MaxRealIndex <= index m name /\
   exists vt, virtualEntry m (index m name) = Some vt).
Proof.
  unfold index.
  destruct (findName name (take MaxRealSlots (_real m)) 0) as [k|] eqn:Hr.
  - right. left. apply findName_found in Hr as [Hr _].
    rewrite length_take in Hr. change MaxRealSlots with 10%nat in Hr.
    unfold MaxRealIndex. lia.
  - destruct (findName name (costType <$> _virtual m) MaxRealIndex)
      as [k|] eqn:Hv; [|left; reflexivity].
    right. right. apply findName_found in Hv as [Hk (ct & Hct)].
    split; [lia|]. rewrite virtualEntry_lookup by lia.
    unfold virtualSlot. rewrite list_lookup_fmap in Hct.
    destruct (_virtual m !! Z.to_nat (k - MaxRealIndex)) as [vt|];
      [eauto|discriminate].
Qed.

Lemma index_names (m m' : t) (name : string) :
  _real m' = _real m ->
  Forall2 (fun a b => TraceCostType._name (costType b)
                      = TraceCostType._name (costType a))
          (_virtual m) (_virtual m') ->
  index m' name = index m name.
Proof.
  intros Hr Hv. unfold index. rewrite Hr.
  rewrite (findName_names name (costType <$> _virtual m)
             (costType <$> _virtual m')); [reflexivity|].
  apply Forall2_fmap. exact Hv.
Qed.

Lemma index_ext (m m' : t) (name : string) :
  ext m m' -> index m' name = index m name.
Proof.
  intros [Hr Hv]. apply index_names; [exact Hr|].
  eapply Forall2_impl; [exact Hv|]. intros a b (_ & _ & _ & Hn). exact Hn.
Qed.

Lemma index_alterVirtual (m : t) (i : Z) (h : VirtualType -> VirtualType)
      (name : string) :
  (forall c, TraceCostType._name (costType (h c))
             = TraceCostType._name (costType c)) ->
  index (alterVirtual m i h) name = index m name.
Proof.
  intros Hh. apply index_names; [reflexivity|]. cbn [alterVirtual _virtual].
  apply Forall2_same_length_lookup_2; [now rewrite length_alter|].
  intros n x y Hx Hy. destruct (decide (virtualSlot i = n)) as [<-|Hne].
  - rewrite list_lookup_alter_eq, Hx in Hy. injection Hy as <-. apply Hh.
  - rewrite list_lookup_alter_ne, Hx in Hy by exact Hne.
    injection Hy as <-. reflexivity.
Qed.

Lemma addAt_in_range (coefs : carray Z MaxRealSlots) (i k : Z) :
  0 <= i < MaxRealIndex -> exists tbl, addAt coefs i k = Some tbl.
Proof.
  intros Hi. unfold addAt.
  destruct (aget_in_range coefs i) as [c ->]; [exact Hi|].
  unfold aset, in_bounds.
  replace (0 <=? i) with true by (symmetry; apply Z.leb_le; lia).
  replace (i <? Z.of_nat MaxRealSlots) with true
    by (symmetry; apply Z.ltb_lt; exact (proj2 Hi)).
  cbn. eauto.
Qed.

(** *** What a call changes *)

(** The resolver leaves things as a sequence of calls of
    [parseFormula()] does. *)
Lemma resolve_ext (parse : t -> Z -> Outcome (t * ParseResult)) :
  (forall m k m' r, parse m k = Done (m', r) -> ext m m') ->
  forall ts m coefs m' r,
    resolve parse ts m coefs = Done (m', r) -> ext m m'.
Proof.
  intros Hparse. induction ts as [|tm rest IH]; intros m coefs m' r; cbn.
  - intros [= <- <-]. apply ext_refl.
  - destruct (operand tm) as [name|]; [|apply IH].
    destruct (index m name =? InvalidIndex).
    { intros [= <- <-]. apply ext_refl. }
    destruct (index m name <? MaxRealIndex).
    + destruct (addAt _ _ _); [|discriminate]. apply IH.
    + destruct (parse m (index m name)) as [[m1 [|e]]| |] eqn:Hp;
        try discriminate.
      * destruct (virtualEntry m1 (index m name)); [|discriminate].
        intros Hres. eapply ext_trans; [eapply Hparse|eapply IH]; eauto.
      * intros [= <- <-]. eapply Hparse; eauto.
Qed.

(** Leaving [parseFormula()]: the type that was entered gets its flag
    [_inParsing] cleared by [h], everything else is as the calls in
    between left it. *)
Lemma leave_ext (m m2 : t) (i : Z) (vt : VirtualType)
      (h : VirtualType -> VirtualType) :
  virtualEntry m i = Some vt ->
  parsed vt = false ->
  inParsing vt = false ->
  ext (alterVirtual m i (setInParsing true)) m2 ->
  (forall c, inParsing (h c) = false) ->
  (forall c, TraceCostType._name (costType (h c))
             = TraceCostType._name (costType c)) ->
  ext m (alterVirtual m2 i h) /\
  virtualEntry (alterVirtual m2 i h) i = Some (h (setInParsing true vt)).
Proof.
  intros Hvt Hp Hi [Hreal Hvirt] Hh Hname.
  apply virtualEntry_Some in Hvt as [Hidx Hlook].
  rewrite virtualEntry_lookup by exact Hidx.
  unfold ext. cbn [alterVirtual _virtual _real] in *.
  remember (virtualSlot i) as j eqn:Hj. clear Hj.
  assert (Hentered : alter (setInParsing true) j (_virtual m) !! j
                     = Some (setInParsing true vt)).
  { rewrite list_lookup_alter_eq, Hlook. reflexivity. }
  destruct (Forall2_lookup_l _ _ _ _ _ Hvirt Hentered) as (y & Hy & Hst).
  assert (y = setInParsing true vt) as ->.
  { destruct Hst as (_ & _ & Hfix & _). apply Hfix. reflexivity. }
  split; [split|].
  - exact Hreal.
  - apply Forall2_same_length_lookup_2.
    + rewrite length_alter, <- (Forall2_length _ _ _ Hvirt), length_alter.
      reflexivity.
    + intros n x z Hx Hz. destruct (decide (j = n)) as [Heq|Hne].
      * rewrite <- Heq in Hx, Hz.
        rewrite list_lookup_alter_eq, Hy in Hz. injection Hz as <-.
        rewrite Hlook in Hx. injection Hx as <-.
        unfold stable. rewrite Hh, Hi, Hp, Hname.
        repeat split; discriminate.
      * rewrite list_lookup_alter_ne in Hz by exact Hne.
        eapply (Forall2_lookup_lr _ _ _ n); [exact Hvirt| |exact Hz].
        rewrite list_lookup_alter_ne by exact Hne. exact Hx.
  - rewrite list_lookup_alter_eq, Hy. reflexivity.
Qed.

(** One call of [parseFormula()], given what the nested calls do. *)
Lemma parseFormulaBody_spec (parse : t -> Z -> Outcome (t * ParseResult))
      (m : t) (i : Z) (m' : t) (r : ParseResult) :
  (forall m k m' r, parse m k = Done (m', r) -> ext m m') ->
  parseFormulaBody parse m i = Done (m', r) ->
  ext m m' /\
  exists vt', virtualEntry m' i = Some vt' /\
              parsed vt' = match r with Parsed => true | Failed _ => false end.
Proof.
  intros Hparse. unfold parseFormulaBody.
  destruct (virtualEntry m i) as [vt|] eqn:Hvt; [|discriminate].
  destruct (parsed vt) eqn:Hp.
  { intros [= <- <-]. split; [apply ext_refl|]. eauto. }
  destruct (inParsing vt) eqn:Hi.
  { intros [= <- <-]. split; [apply ext_refl|]. eauto. }
  destruct (terms (TraceCostType._formula (costType vt))) as [ts|].
  - destruct (resolve parse ts _ _) as [[m2 [e|coefs]]| |] eqn:Hres;
      try discriminate; intros [= <- <-].
    + destruct (leave_ext m m2 i vt (setInParsing false) Hvt Hp Hi)
        as [Hext Hty]; [eapply resolve_ext; eauto|reflexivity|reflexivity|].
      split; [exact Hext|]. eexists. split; [exact Hty|]. exact Hp.
    + destruct (leave_ext m m2 i vt (setParsedWith coefs) Hvt Hp Hi)
        as [Hext Hty]; [eapply resolve_ext; eauto|reflexivity|reflexivity|].
      split; [exact Hext|]. eexists. split; [exact Hty|]. reflexivity.
  - intros [= <- <-].
    destruct (leave_ext m (alterVirtual m i (setInParsing true)) i vt
                (setInParsing false) Hvt Hp Hi)
      as [Hext Hty]; [apply ext_refl|reflexivity|reflexivity|].
    split; [exact Hext|]. eexists. split; [exact Hty|]. exact Hp.
Qed.

Lemma parseFormulaFuel_spec (fuel : nat) (m : t) (i : Z) (m' : t)
      (r : ParseResult) :
  parseFormulaFuel fuel m i = Done (m', r) ->
  ext m m' /\
  exists vt', virtualEntry m' i = Some vt' /\
              parsed vt' = match r with Parsed => true | Failed _ => false end.
Proof.
  revert m i m' r. induction fuel as [|fuel IH]; intros m i m' r; cbn.
  - discriminate.
  - apply parseFormulaBody_spec. intros m0 k m0' r0 H.
    exact (proj1 (IH _ _ _ _ H)).
Qed.

(** *** The nesting is bounded *)

Lemma countAvailable_stable (l l' : list VirtualType) :
  Forall2 stable l l' -> (countAvailable l' <= countAvailable l)%nat.
Proof.
  induction 1 as [|x y l l' (Hi & Hp & _) _ IH]; cbn; [lia|].
  unfold available. rewrite Hi.
  destruct (parsed x); [rewrite Hp by reflexivity|];
    destruct (parsed y), (inParsing x); cbn; lia.
Qed.

Lemma countAvailable_enter (l : list VirtualType) (j : nat)
      (vt : VirtualType) :
  l !! j = Some vt -> available vt = true ->
  S (countAvailable (alter (setInParsing true) j l)) = countAvailable l.
Proof.
  revert j. induction l as [|x l IH]; intros [|j] Hl Hav; try discriminate.
  - cbn in Hl. injection Hl as ->. cbn. rewrite Hav.
    unfold available, inParsing. cbn. rewrite andb_false_r. reflexivity.
  - cbn in Hl. cbn. rewrite <- (IH j Hl Hav). lia.
Qed.

Lemma countAvailable_le_length (l : list VirtualType) :
  (countAvailable l <= length l)%nat.
Proof. induction l as [|x l IH]; cbn; [lia|]. destruct (available x); lia. Qed.

Lemma resolve_returns (parse : t -> Z -> Outcome (t * ParseResult))
      (bound : nat) :
  (forall m k, (countAvailable (_virtual m) < bound)%nat ->
               parse m k <> OutOfFuel) ->
  (forall m k m' r, parse m k = Done (m', r) -> ext m m') ->
  forall ts m coefs,
    (countAvailable (_virtual m) < bound)%nat ->
    resolve parse ts m coefs <> OutOfFuel.
Proof.
  intros Hret Hext. induction ts as [|tm rest IH]; intros m coefs Hm; cbn.
  - discriminate.
  - destruct (operand tm) as [name|]; [|now apply IH].
    destruct (index m name =? InvalidIndex); [discriminate|].
    destruct (index m name <? MaxRealIndex).
    + destruct (addAt _ _ _); [|discriminate]. now apply IH.
    + specialize (Hret m (index m name) Hm).
      destruct (parse m (index m name)) as [[m1 [|e]]| |] eqn:Hp;
        try discriminate; [|contradiction].
      destruct (virtualEntry m1 (index m name)); [|discriminate].
      apply IH. destruct (Hext _ _ _ _ Hp) as [_ Hst].
      apply countAvailable_stable in Hst. lia.
Qed.

Lemma parseFormulaFuel_returns (fuel : nat) (m : t) (i : Z) :
  (countAvailable (_virtual m) < fuel)%nat ->
  parseFormulaFuel fuel m i <> OutOfFuel.
Proof.
  revert m i. induction fuel as [|fuel IH]; intros m i Hm; [lia|].
  cbn. unfold parseFormulaBody.
  destruct (virtualEntry m i) as [vt|] eqn:Hvt; [|discriminate].
  destruct (parsed vt) eqn:Hp; [discriminate|].
  destruct (inParsing vt) eqn:Hi; [discriminate|].
  destruct (terms (TraceCostType._formula (costType vt))) as [ts|];
    [|discriminate].
  assert (Hres : resolve (parseFormulaFuel fuel) ts
                   (alterVirtual m i (setInParsing true))
                   noCoefficients <> OutOfFuel).
  { apply (resolve_returns _ fuel).
    - exact IH.
    - intros m0 k m0' r0 H. exact (proj1 (parseFormulaFuel_spec _ _ _ _ _ H)).
    - apply virtualEntry_Some in Hvt as [_ Hlook]. cbn [alterVirtual _virtual].
      pose proof (countAvailable_enter _ _ vt Hlook) as Hen.
      unfold available in Hen. rewrite Hp, Hi in Hen.
      specialize (Hen eq_refl). lia. }
  destruct (resolve _ ts _ _) as [[m2 [e|coefs]]| |];
    try discriminate. contradiction.
Qed.

(** [parseFormula()] returns: the nesting never exceeds its bound. *)
Lemma parseFormula_returns (m : t) (i : Z) : parseFormula m i <> OutOfFuel.
Proof.
  apply parseFormulaFuel_returns.
  pose proof (countAvailable_le_length (_virtual m)). lia.
Qed.

(** *** No access outside the tables *)

Lemma resolve_no_fault (parse : t -> Z -> Outcome (t * ParseResult)) :
  (forall m k, virtualEntry m k <> None -> parse m k <> Fault) ->
  (forall m k m' r, parse m k = Done (m', r) ->
                    virtualEntry m' k <> None) ->
  forall ts m coefs, resolve parse ts m coefs <> Fault.
Proof.
  intros Hok Hkeep. induction ts as [|tm rest IH]; intros m coefs; cbn.
  - discriminate.
  - destruct (operand tm) as [name|]; [|apply IH].
    destruct (Z.eqb_spec (index m name) InvalidIndex) as [|Hinv];
      [discriminate|].
    destruct (index_cases m name) as [Hc|[Hc|[Hc (vt & Hvt)]]];
      [contradiction| |].
    + replace (index m name <? MaxRealIndex) with true
        by (symmetry; apply Z.ltb_lt; lia).
      destruct (addAt_in_range (ofReal coefs) _ (factor tm) Hc) as [tbl ->].
      apply IH.
    + replace (index m name <? MaxRealIndex) with false
        by (symmetry; apply Z.ltb_ge; lia).
      assert (Hnf : parse m (index m name) <> Fault).
      { apply Hok. rewrite Hvt. discriminate. }
      destruct (parse m (index m name)) as [[m1 [|e]]| |] eqn:Hp;
        try discriminate; [|contradiction].
      apply Hkeep in Hp.
      destruct (virtualEntry m1 (index m name)); [apply IH|contradiction].
Qed.

Lemma parseFormulaFuel_no_fault (fuel : nat) (m : t) (i : Z) :
  virtualEntry m i <> None -> parseFormulaFuel fuel m i <> Fault.
Proof.
  revert m i. induction fuel as [|fuel IH]; intros m i Hex; cbn;
    [discriminate|].
  unfold parseFormulaBody.
  destruct (virtualEntry m i) as [vt|]; [|contradiction].
  destruct (parsed vt); [discriminate|].
  destruct (inParsing vt); [discriminate|].
  destruct (terms _) as [ts|]; [|discriminate].
  assert (Hres : resolve (parseFormulaFuel fuel) ts
                   (alterVirtual m i (setInParsing true))
                   noCoefficients <> Fault).
  { apply resolve_no_fault; [exact IH|].
    intros m0 k m0' r0 H.
    destruct (parseFormulaFuel_spec _ _ _ _ _ H) as (_ & vt' & -> & _).
    discriminate. }
  destruct (resolve _ ts _ _) as [[m2 [e|coefs]]| |];
    try discriminate. contradiction.
Qed.

(** [parseFormula()] on a virtual type of the mapping returns a result:
    it neither leaves a table nor nests without end. *)
Lemma parseFormula_total (m : t) (i : Z) :
  virtualEntry m i <> None ->
  exists m' r, parseFormula m i = Done (m', r).
Proof.
  intros Hex.
  pose proof (parseFormula_returns m i) as Hret.
  pose proof (parseFormulaFuel_no_fault (S (length (_virtual m))) m i Hex)
    as Hnf.
  fold (parseFormula m i) in Hnf.
  destruct (parseFormula m i) as [[m' r]| |]; [eauto|contradiction..].
Qed.

(** *** Formulas that fail *)

(** A formula with a name that the mapping does not know, or with the
    name of the type that is being parsed, does not resolve. *)
Lemma resolve_dangling (fuel : nat) (i : Z) (vt : VirtualType)
      (name : string) :
  inParsing vt = true -> parsed vt = false ->
  forall ts m coefs,
    virtualEntry m i = Some vt ->
    In (OName name) (operand <$> ts) ->
    index m name = InvalidIndex \/ index m name = i ->
    forall m' r,
      resolve (parseFormulaFuel fuel) ts m coefs = Done (m', r) ->
      exists e, r = inl e.
Proof.
  intros Hin Hnp. induction ts as [|tm rest IH];
    intros m coefs Hvt Hmem Hd m' r; cbn in Hmem; [contradiction|].
  pose proof (virtualEntry_Some _ _ _ Hvt) as [Hi _].
  cbn [resolve].
  destruct (operand tm) as [n|] eqn:Hop.
  - destruct (Z.eqb_spec (index m n) InvalidIndex) as [|Hinv].
    { intros [= <- <-]. eauto. }
    destruct (Z.ltb_spec (index m n) MaxRealIndex) as [Hlt|Hge].
    + destruct Hmem as [[= ->]|Hmem].
      { destruct Hd as [Hd|Hd]; [contradiction|lia]. }
      destruct (addAt _ _ _); [|discriminate]. now apply IH.
    + destruct Hmem as [[= ->]|Hmem].
      * destruct Hd as [Hd|Hd]; [contradiction|]. rewrite Hd.
        destruct fuel as [|fuel]; cbn [parseFormulaFuel]; [discriminate|].
        unfold parseFormulaBody. rewrite Hvt, Hnp, Hin.
        intros [= <- <-]. eauto.
      * destruct (parseFormulaFuel fuel m (index m n))
          as [[m1 [|e]]| |] eqn:Hp; try discriminate.
        -- destruct (parseFormulaFuel_spec _ _ _ _ _ Hp) as [Hext _].
           destruct (virtualEntry m1 (index m n)); [|discriminate].
           apply IH; [|exact Hmem|].
           ++ exact (ext_inParsing _ _ _ _ Hext Hvt Hin).
           ++ rewrite (index_ext _ _ name Hext). exact Hd.
        -- intros [= <- <-]. eauto.
  - destruct Hmem as [Hmem|Hmem]; [discriminate|]. now apply IH.
Qed.

Lemma dangling_name_fails (m : t) (i : Z) (vt : VirtualType)
      (ts : list Term) (name : string) :
  virtualEntry m i = Some vt ->
  parsed vt = false -> inParsing vt = false ->
  terms (TraceCostType._formula (costType vt)) = Some ts ->
  In (OName name) (operand <$> ts) ->
  index m name = InvalidIndex \/ index m name = i ->
  exists m' e, parseFormula m i = Done (m', Failed e).
Proof.
  intros Hvt Hp Hi Hts Hmem Hd.
  destruct (parseFormula_total m i) as (m' & r & Hpf).
  { rewrite Hvt. discriminate. }
  destruct r as [|e]; [exfalso|eauto].
  unfold parseFormula in Hpf. cbn [parseFormulaFuel] in Hpf.
  unfold parseFormulaBody in Hpf. rewrite Hvt, Hp, Hi, Hts in Hpf.
  destruct (resolve _ ts _ _) as [[m2 [e|coefs]]| |] eqn:Hres;
    try discriminate.
  apply virtualEntry_Some in Hvt as [Hidx Hlook].
  eapply (resolve_dangling _ i (setInParsing true vt) name) in Hres;
    [destruct Hres as [e He]; discriminate|reflexivity|exact Hp| |exact Hmem|].
  - rewrite virtualEntry_lookup by exact Hidx. cbn [alterVirtual _virtual].
    rewrite list_lookup_alter_eq, Hlook. reflexivity.
  - rewrite index_alterVirtual by reflexivity. exact Hd.
Qed.

Lemma syntax_error_fails (m : t) (i : Z) (vt : VirtualType) :
  virtualEntry m i = Some vt ->
  parsed vt = false -> inParsing vt = false ->
  terms (TraceCostType._formula (costType vt)) = None ->
  exists m', parseFormula m i = Done (m', Failed SyntaxError).
Proof.
  intros Hvt Hp Hi Hts. unfold parseFormula. cbn [parseFormulaFuel].
  unfold parseFormulaBody. rewrite Hvt, Hp, Hi, Hts. eauto.
Qed.

End FormulaFacts.

(** ** Virtual cost types: evaluation *)

Module VirtualCostFacts.
Import MachInt MachIntFacts CArrayFacts Formula TraceCostMapping FormulaFacts.
Import Scenario.

Lemma type_virtual (m : t) (i : Z) (ct : TraceCostType.t) :
  virtualType m i = Some ct -> type m i = Some ct.
Proof.
  intros Hct. destruct (virtualType_Some _ _ _ Hct) as (vt & Hvt & _).
  apply virtualEntry_Some in Hvt as [Hi _]. unfold type.
  destruct (Z.ltb_spec i MaxRealIndex); [lia|exact Hct].
Qed.

Lemma parseFormula_parsed (m : t) (i : Z) (vt : VirtualType) :
  virtualEntry m i = Some vt -> parsed vt = true ->
  parseFormula m i = Done (m, Parsed).
Proof.
  intros Hvt Hp. unfold parseFormula. cbn. unfold parseFormulaBody.
  rewrite Hvt, Hp. reflexivity.
Qed.

Lemma returned_Done {A B : Type} (o : Outcome (A * B)) (b : B) :
  returned o = Some b -> exists a, o = Done (a, b).
Proof. destruct o as [[a b']| |]; cbn; intros [= <-]. eauto. Qed.

(** The dot product over the table is the sum over the real indices. *)
Lemma dotProduct_sum (vt : VirtualType) (x : TraceCost.t) :
  dotProduct (TraceCostType._coefficient (costType vt)) x + constant vt
  = weightedSum vt x.
Proof.
  destruct vt as [[nm ln fm pd ip [l Hl] ri] c].
  change MaxRealSlots with 10%nat in Hl.
  do 11 (destruct l as [|? l]; try discriminate Hl).
  reflexivity.
Qed.

(** What [subCost] does on a virtual type, by the result of parsing. *)
Lemma subCost_virtual (m : t) (i : Z) (ct : TraceCostType.t)
      (x : TraceCost.t) (m' : t) (r : ParseResult) :
  virtualType m i = Some ct ->
  TraceCostType.isReal ct = false ->
  parseFormula m i = Done (m', r) ->
  exists vt',
    virtualEntry m' i = Some vt' /\
    parsed vt' = match r with Parsed => true | Failed _ => false end /\
    subCost m i x
    = Done (m', match r with
                | Parsed => to_uint64 (weightedSum vt' x)
                | Failed _ => 0
                end).
Proof.
  intros Hct Hvirt Hpf.
  destruct (parseFormulaFuel_spec _ _ _ _ _ Hpf) as (_ & vt' & Hvt' & Hp').
  exists vt'. split; [exact Hvt'|]. split; [exact Hp'|].
  unfold subCost. rewrite (type_virtual _ _ _ Hct), Hvirt.
  destruct (virtualType_Some _ _ _ Hct) as (vt & Hvt & <-).
  fold (parsed vt). destruct (parsed vt) eqn:Hp.
  - rewrite (parseFormula_parsed m i vt Hvt Hp) in Hpf.
    injection Hpf as <- <-. rewrite Hvt'.
    unfold evalCoefficients. rewrite dotProduct_sum. reflexivity.
  - rewrite Hpf. destruct r as [|e]; [|reflexivity].
    rewrite Hvt'. unfold evalCoefficients. rewrite dotProduct_sum.
    reflexivity.
Qed.

(** C5.  For a virtual cost type with a formula, [parseFormula()] and
    [subCost] both return a result: no error leaves them as an abort.
    And whenever parsing fails (unresolved name, syntax error or
    reference cycle), the type is left unparsed and [subCost] returns 0,
    for every cost item. *)
Theorem failed_formula_yields_zero
        (m : t) (i : Z) (ct : TraceCostType.t) (x : TraceCost.t) :
  virtualType m i = Some ct ->
  TraceCostType.isReal ct = false ->
  (exists m' r, parseFormula m i = Done (m', r)) /\
  (exists m' v, subCost m i x = Done (m', v)) /\
  forall m' e,
    parseFormula m i = Done (m', Failed e) ->
    (exists ct', type m' i = Some ct' /\
                 TraceCostType._parsed ct' = false) /\
    subCost m i x = Done (m', 0).
Proof.
  intros Hct Hvirt.
  destruct (parseFormula_total m i) as (m1 & r1 & Hpf1).
  { destruct (virtualType_Some _ _ _ Hct) as (vt & -> & _). discriminate. }
  split; [eauto|]. split.
  - destruct (subCost_virtual m i ct x m1 r1 Hct Hvirt Hpf1)
      as (vt1 & _ & _ & Hsub1). rewrite Hsub1. eauto.
  - intros m' e Hpf.
    destruct (subCost_virtual m i ct x m' _ Hct Hvirt Hpf)
      as (vt' & Hvt' & Hp' & Hsub).
    split; [|exact Hsub].
    exists (costType vt'). split; [|exact Hp'].
    apply type_virtual. unfold virtualType. rewrite Hvt'. reflexivity.
Qed.

(** RM = l1rm + foo, with foo undefined: the name does not resolve, and
    the sub cost is 0. *)
Lemma failed_formula_yields_zero_foo :
  exists m',
    parseFormula mappingFoo 10 = Done (m', Failed (UnresolvedName "foo")) /\
    subCost mappingFoo 10 cost37 = Done (m', 0).
Proof.
  assert (Hct : virtualType mappingFoo 10
                = Some (virtualNamed "RM" "l1rm + foo")) by reflexivity.
  destruct (failed_formula_yields_zero mappingFoo 10 _ cost37 Hct eq_refl)
    as (_ & _ & Hzero).
  eexists. split.
  - vm_compute. reflexivity.
  - apply (Hzero _ (UnresolvedName "foo")). vm_compute. reflexivity.
Defined.

(** The kinds of failure, also after a constant term: each is a regular
    result with sub cost 0. *)
Example failed_formula_cycle :
  exists m',
    parseFormula mappingCycle 10 = Done (m', Failed FormulaCycle) /\
    subCost mappingCycle 10 cost37 = Done (m', 0).
Proof. eexists. split; vm_compute; reflexivity. Qed.

Example failed_formula_syntax :
  exists m',
    parseFormula mappingSyntax 10 = Done (m', Failed SyntaxError) /\
    subCost mappingSyntax 10 cost37 = Done (m', 0).
Proof. eexists. split; vm_compute; reflexivity. Qed.

Example failed_formula_after_constant :
  exists m',
    parseFormula mappingConstFoo 10
    = Done (m', Failed (UnresolvedName "foo")) /\
    subCost mappingConstFoo 10 cost37 = Done (m', 0).
Proof. eexists. split; vm_compute; reflexivity. Qed.

Example failed_formula_self_reference :
  exists m',
    parseFormula mappingSelf 10 = Done (m', Failed FormulaCycle) /\
    subCost mappingSelf 10 cost37 = Done (m', 0).
Proof. eexists. split; vm_compute; reflexivity. Qed.



(** W = 2*Ir + 10*Dr - 1 on Ir = 3 and Dr = 7: the constant term is
    cached in the constant slot, and the sub cost is 6 + 70 - 1. *)
Example weighted_formula_with_constant :
  exists m' vt,
    parseFormula mappingWeighted 10 = Done (m', Parsed) /\
    virtualEntry m' 10 = Some vt /\
    coefficient vt 0 = 2 /\ coefficient vt 1 = 10 /\
    coefficient vt MaxRealIndex = -1 /\
    weightedSum vt cost37 = 75 /\
    subCost mappingWeighted 10 cost37 = Done (m', 75).
Proof.
  eexists _, _. split; [vm_compute; reflexivity|].
  split; [vm_compute; reflexivity|].
  split; [reflexivity|]. split; [reflexivity|]. split; [reflexivity|].
  split; vm_compute; reflexivity.
Qed.

(** Nested virtual types: T = 2*RM - l2rm is 2*10 - 7, and
    U = 3*K + 1 over K = Ir + 2 is 3*(3 + 2) + 1. *)
Example nested_formulas :
  (exists m', subCost mappingNested 11 cost37 = Done (m', 13)) /\
  (exists m', subCost mappingOffsets 11 cost37 = Done (m', 16)).
Proof. split; apply returned_Done; vm_compute; reflexivity. Qed.

End VirtualCostFacts.

(** ** Cycle detection: members and cycle pointers agree *)

Module CycleFacts.
Import TraceFunction TraceData CycleDetection.

Lemma getFunction_alterFunction (d : TraceData.t) (f k : nat)
      (g : TraceFunction.t -> TraceFunction.t) :
  getFunction (alterFunction d f g) k
  = if decide (f = k) then g <$> getFunction d k else getFunction d k.
Proof.
  unfold getFunction, alterFunction. cbn [_functionMap setFunctionMap].
  rewrite list_lookup_alter. destruct (decide (f = k)) as [->|]; [|reflexivity].
  destruct (_functionMap d !! k); reflexivity.
Qed.

Lemma getFunction_alterCycle (d : TraceData.t) (c k : nat)
      (g : TraceFunctionCycle.t -> TraceFunctionCycle.t) :
  getFunction (alterCycle d c g) k = getFunction d k.
Proof. reflexivity. Qed.

Lemma cycles_alterFunction (d : TraceData.t) (f : nat)
      (g : TraceFunction.t -> TraceFunction.t) :
  _functionCycles (alterFunction d f g) = _functionCycles d.
Proof. reflexivity. Qed.

Lemma cycles_alterCycle (d : TraceData.t) (c : nat)
      (g : TraceFunctionCycle.t -> TraceFunctionCycle.t) :
  _functionCycles (alterCycle d c g) = alter g c (_functionCycles d).
Proof. reflexivity. Qed.

(** An update of a function that keeps its cycle pointer. *)
Lemma consistent_alterFunction (d : TraceData.t) (f : nat)
      (g : TraceFunction.t -> TraceFunction.t) :
  (forall fn, _cycle (g fn) = _cycle fn) ->
  membersConsistent d -> membersConsistent (alterFunction d f g).
Proof.
  intros Hg Hd k fn c. rewrite getFunction_alterFunction.
  destruct (decide (f = k)) as [->|].
  - destruct (getFunction d k) as [fn0|] eqn:Hk; [|discriminate].
    intros [= <-]. rewrite Hg. intros Hc. exact (Hd k fn0 c Hk Hc).
  - apply Hd.
Qed.

(** An update of a cycle that keeps the members it has. *)
Lemma consistent_alterCycle (d : TraceData.t) (c : nat)
      (g : TraceFunctionCycle.t -> TraceFunctionCycle.t) :
  (forall cy x, x ∈ TraceFunctionCycle.members cy ->
                x ∈ TraceFunctionCycle.members (g cy)) ->
  membersConsistent d -> membersConsistent (alterCycle d c g).
Proof.
  intros Hg Hd k fn c' Hk Hc. destruct (Hd k fn c' Hk Hc) as (cy & Hcy & Hin).
  unfold alterCycle. cbn [_functionCycles setFunctionCycles].
  rewrite list_lookup_alter. destruct (decide (c = c')) as [->|].
  - rewrite Hcy. exists (g cy). split; [reflexivity|]. now apply Hg.
  - exists cy. split; assumption.
Qed.

Lemma cycle_pointer_in_range (d : TraceData.t) (f : nat)
      (fn : TraceFunction.t) (c : nat) :
  membersConsistent d -> getFunction d f = Some fn -> _cycle fn = Some c ->
  (c < length (_functionCycles d))%nat.
Proof.
  intros Hd Hf Hc. destruct (Hd f fn c Hf Hc) as (cy & Hcy & _).
  now apply lookup_lt_Some in Hcy.
Qed.

(** The new cycle of the factory is not pointed to yet: it can be
    emptied by [init()]. *)
Lemma consistent_functionCycle_init (d : TraceData.t) (f : nat) :
  membersConsistent d ->
  membersConsistent
    (alterCycle (fst (functionCycle d f)) (snd (functionCycle d f))
                TraceFunctionCycle.init).
Proof.
  intros Hd k fn c Hk Hc.
  change (getFunction d k = Some fn) in Hk.
  destruct (Hd k fn c Hk Hc) as (cy & Hcy & Hin).
  exists cy. split; [|exact Hin].
  unfold alterCycle, functionCycle. cbn [fst snd _functionCycles setFunctionCycles].
  rewrite list_lookup_alter_ne.
  - now apply lookup_app_l_Some.
  - apply lookup_lt_Some in Hcy. lia.
Qed.

Lemma length_cycles_cycleAdd (d : TraceData.t) (c f : nat) :
  length (_functionCycles (cycleAdd d c f)) = length (_functionCycles d).
Proof.
  unfold cycleAdd, alterFunction, alterCycle.
  cbn [_functionCycles setFunctionCycles setFunctionMap].
  apply length_alter.
Qed.

(** [add]: the function becomes a member and points to the cycle. *)
Lemma consistent_cycleAdd (d : TraceData.t) (c f : nat) :
  (c < length (_functionCycles d))%nat ->
  membersConsistent d -> membersConsistent (cycleAdd d c f).
Proof.
  intros Hc Hd k fn c'. unfold cycleAdd.
  rewrite getFunction_alterFunction, getFunction_alterCycle.
  rewrite cycles_alterFunction, cycles_alterCycle.
  destruct (decide (f = k)) as [->|Hne].
  - destruct (getFunction d k) as [fn0|]; [|discriminate].
    intros [= <-]. cbn [setCycle _cycle]. intros [= <-].
    destruct (lookup_lt_is_Some_2 _ _ Hc) as [cy Hcy].
    exists (TraceFunctionCycle.addMember cy k).
    rewrite list_lookup_alter_eq, Hcy. split; [reflexivity|].
    cbn. apply elem_of_app. right. apply list_elem_of_singleton. reflexivity.
  - intros Hk Hc'.
    destruct (Hd k fn c' Hk Hc') as (cy & Hcy & Hin).
    rewrite list_lookup_alter. destruct (decide (c = c')) as [->|].
    + rewrite Hcy. eexists. split; [reflexivity|].
      cbn. apply elem_of_app. left. exact Hin.
    + exists cy. split; assumption.
Qed.

Lemma consistent_addAll (popped : list nat) (d : TraceData.t) (c : nat) :
  (c < length (_functionCycles d))%nat ->
  membersConsistent d ->
  membersConsistent (fold_left (fun d' g => cycleAdd d' c g) popped d).
Proof.
  revert d. induction popped as [|g popped IH]; intros d Hc Hd; cbn.
  - exact Hd.
  - apply IH.
    + now rewrite length_cycles_cycleAdd.
    + now apply consistent_cycleAdd.
Qed.

Lemma consistent_newCycle (d : TraceData.t) (f : nat) (popped : list nat) :
  membersConsistent d -> membersConsistent (newCycle d f popped).
Proof.
  intros Hd. unfold newCycle.
  pose proof (consistent_functionCycle_init d f Hd) as Hinit.
  destruct (functionCycle d f) as [d1 c] eqn:Hfc. cbn [fst snd] in Hinit.
  unfold cycleSetup. apply consistent_alterCycle; [auto|].
  apply consistent_addAll; [|exact Hinit].
  unfold alterCycle. cbn [_functionCycles setFunctionCycles].
  rewrite length_alter. unfold functionCycle in Hfc.
  injection Hfc as <- <-. cbn [_functionCycles setFunctionCycles].
  rewrite length_app. cbn. lia.
Qed.

Lemma consistent_enter (w : Walk) (f : nat) :
  membersConsistent (data w) -> membersConsistent (data (enter w f)).
Proof. intros Hd. cbn. now apply consistent_alterFunction. Qed.

Lemma consistent_lowerTo (w : Walk) (f : nat) (v : Z) :
  membersConsistent (data w) -> membersConsistent (data (lowerTo w f v)).
Proof. intros Hd. cbn. now apply consistent_alterFunction. Qed.

Lemma consistent_leave (w : Walk) (f : nat) :
  membersConsistent (data w) -> membersConsistent (data (leave w f)).
Proof.
  intros Hd. unfold leave.
  destruct (preOrder w !! f) as [[pre|]|]; try exact Hd.
  destruct (cycleLowOf w f =? pre); [|exact Hd].
  destruct (popTo f (pTop w)) as [popped rest].
  destruct ((1 <? length popped)%nat || callsItself (data w) f);
    [|exact Hd].
  cbn. now apply consistent_newCycle.
Qed.

Lemma consistent_visitCalls (dfs : nat -> Walk -> option Walk) (f : nat) :
  (forall g w w', dfs g w = Some w' ->
                  membersConsistent (data w) -> membersConsistent (data w')) ->
  forall gs w w',
    visitCalls dfs f gs w = Some w' ->
    membersConsistent (data w) -> membersConsistent (data w').
Proof.
  intros Hdfs. induction gs as [|g gs IH]; intros w w'; cbn.
  - intros [= <-]. auto.
  - unfold visitCall.
    destruct (preOrder w !! g) as [[pre|]|].
    + intros Hrest Hd. eapply IH; [exact Hrest|].
      destruct (onStack w g); [now apply consistent_lowerTo|exact Hd].
    + destruct (dfs g w) as [w1|] eqn:Hg; [|discriminate].
      intros Hrest Hd. eapply IH; [exact Hrest|].
      apply consistent_lowerTo. eapply Hdfs; eauto.
    + apply IH.
Qed.

Lemma consistent_cycleDFS (fuel : nat) (f : nat) (w w' : Walk) :
  cycleDFS fuel f w = Some w' ->
  membersConsistent (data w) -> membersConsistent (data w').
Proof.
  revert f w w'. induction fuel as [|fuel IH]; intros f w w'; cbn.
  - discriminate.
  - destruct (preOrder w !! f) as [[pre|]|]; try (intros [= <-]; auto).
    destruct (getFunction (data w) f) as [fn|]; [|intros [= <-]; auto].
    destruct (visitCalls _ f _ _) as [w1|] eqn:Hcalls; [|discriminate].
    intros [= <-] Hd. apply consistent_leave.
    eapply (consistent_visitCalls _ f IH); [exact Hcalls|].
    now apply consistent_enter.
Qed.

Lemma consistent_visitAll (fuel : nat) (fs : list nat) (w w' : Walk) :
  visitAll fuel fs w = Some w' ->
  membersConsistent (data w) -> membersConsistent (data w').
Proof.
  revert w. induction fs as [|f fs IH]; intros w; cbn.
  - intros [= <-]. auto.
  - destruct (cycleDFS fuel f w) as [w1|] eqn:Hf; [|discriminate].
    intros Hrest Hd. eapply IH; [exact Hrest|].
    eapply consistent_cycleDFS; eauto.
Qed.

Lemma consistent_resetAll (d : TraceData.t) : membersConsistent (resetAll d).
Proof.
  intros f fn c. unfold getFunction, resetAll.
  cbn [_functionMap setFunctionMap setFunctionCycles].
  rewrite list_lookup_fmap.
  destruct (_functionMap d !! f) as [[k fn0]|]; [|discriminate].
  cbn. intros [= <-]. discriminate.
Qed.

(** After [updateFunctionCycles()], the members and the cycle pointers
    agree. *)
Lemma consistent_updateFunctionCycles (d d' : TraceData.t) :
  updateFunctionCycles d = Some d' -> membersConsistent d'.
Proof.
  unfold updateFunctionCycles.
  destruct (visitAll _ _ _) as [w|] eqn:Hall; [|discriminate].
  intros [= <-].
  change (membersConsistent (data w)).
  eapply consistent_visitAll; [exact Hall|].
  cbn [data]. exact (consistent_resetAll d).
Qed.

End CycleFacts.

(** ** Cycle detection: the recursion is bounded *)

Module CycleTermination.
Import TraceFunction TraceData CycleDetection.

Lemma countUnvisited_enter (pre : list (option Z)) (f : nat) (n : Z) :
  pre !! f = Some None ->
  S (countUnvisited (<[f := Some n]> pre)) = countUnvisited pre.
Proof.
  revert f. induction pre as [|x pre IH]; intros [|f] Hf; try discriminate.
  - cbn in Hf. injection Hf as ->. reflexivity.
  - cbn in Hf. cbn. destruct x; [|f_equal]; now apply IH.
Qed.

Lemma countUnvisited_replicate (n : nat) :
  countUnvisited (replicate n None) = n.
Proof. induction n as [|n IH]; cbn; [reflexivity|]. now rewrite IH. Qed.

Lemma preOrder_lowerTo (w : Walk) (f : nat) (v : Z) :
  preOrder (lowerTo w f v) = preOrder w.
Proof. reflexivity. Qed.

Lemma preOrder_leave (w : Walk) (f : nat) : preOrder (leave w f) = preOrder w.
Proof.
  unfold leave. destruct (preOrder w !! f) as [[pre|]|]; try reflexivity.
  destruct (cycleLowOf w f =? pre); [|reflexivity].
  destruct (popTo f (pTop w)) as [popped rest].
  destruct ((1 <? length popped)%nat || callsItself (data w) f); reflexivity.
Qed.

Lemma visitCalls_returns (dfs : nat -> Walk -> option Walk) (f : nat)
      (bound : nat) :
  (forall g w, (countUnvisited (preOrder w) < bound)%nat ->
     exists w', dfs g w = Some w' /\
                (countUnvisited (preOrder w')
                 <= countUnvisited (preOrder w))%nat) ->
  forall gs w,
    (countUnvisited (preOrder w) < bound)%nat ->
    exists w', visitCalls dfs f gs w = Some w' /\
               (countUnvisited (preOrder w')
                <= countUnvisited (preOrder w))%nat.
Proof.
  intros Hdfs. induction gs as [|g gs IH]; intros w Hw; cbn.
  - exists w. split; [reflexivity|lia].
  - unfold visitCall. destruct (preOrder w !! g) as [[pre|]|].
    + destruct (IH (if onStack w g then lowerTo w f pre else w))
        as (w' & Hw' & Hle).
      * destruct (onStack w g); [rewrite preOrder_lowerTo|]; exact Hw.
      * exists w'. split; [exact Hw'|].
        destruct (onStack w g); [rewrite preOrder_lowerTo in Hle|]; exact Hle.
    + destruct (Hdfs g w Hw) as (w1 & -> & Hle1).
      destruct (IH (lowerTo w1 f (cycleLowOf w1 g))) as (w' & Hw' & Hle).
      * rewrite preOrder_lowerTo. lia.
      * exists w'. split; [exact Hw'|]. rewrite preOrder_lowerTo in Hle. lia.
    + now apply IH.
Qed.

(** A visit with more fuel than there are functions not visited yet
    returns, and visits stay visits. *)
Lemma cycleDFS_returns (fuel : nat) (f : nat) (w : Walk) :
  (countUnvisited (preOrder w) < fuel)%nat ->
  exists w', cycleDFS fuel f w = Some w' /\
             (countUnvisited (preOrder w')
              <= countUnvisited (preOrder w))%nat.
Proof.
  revert f w. induction fuel as [|fuel IH]; intros f w Hw; [lia|].
  cbn. destruct (preOrder w !! f) as [[pre|]|] eqn:Hf;
    try (exists w; split; [reflexivity|lia]).
  destruct (getFunction (data w) f) as [fn|];
    [|exists w; split; [reflexivity|lia]].
  pose proof (countUnvisited_enter _ f (pNo w + 1) Hf) as Hen.
  destruct (visitCalls_returns (cycleDFS fuel) f fuel IH
              (calledFunctions fn) (enter w f)) as (w1 & -> & Hle).
  - cbn [enter preOrder]. lia.
  - exists (leave w1 f). split; [reflexivity|].
    rewrite preOrder_leave. cbn [enter preOrder] in Hle. lia.
Qed.

Lemma visitAll_returns (fuel : nat) (fs : list nat) (w : Walk) :
  (countUnvisited (preOrder w) < fuel)%nat ->
  exists w', visitAll fuel fs w = Some w'.
Proof.
  revert w. induction fs as [|f fs IH]; intros w Hw; cbn.
  - eauto.
  - destruct (cycleDFS_returns fuel f w Hw) as (w1 & -> & Hle).
    apply IH. lia.
Qed.

(** [updateFunctionCycles()] returns. *)
Lemma updateFunctionCycles_returns (d : TraceData.t) :
  exists d', updateFunctionCycles d = Some d'.
Proof.
  unfold updateFunctionCycles.
  destruct (visitAll_returns (S (length (_functionMap d)))
              (seq 0 (length (_functionMap d)))
              {| data := setInFunctionCycleUpdate (resetAll d) true;
                 pNo := 0; pTop := [];
                 preOrder := replicate (length (_functionMap d)) None |})
    as [w ->].
  - cbn [preOrder]. rewrite countUnvisited_replicate. lia.
  - eauto.
Qed.

End CycleTermination.

(** ** Cycle membership *)

Module CycleTheorem.
Import TraceFunction TraceData CycleDetection CycleFacts CycleTermination.
Import Scenario.

Lemma isCycleMember_iff (fn : TraceFunction.t) :
  isCycleMember fn = true <-> cycle fn <> None.
Proof.
  unfold isCycleMember, cycle. destruct (_cycle fn); split;
    intros H; try reflexivity; try discriminate. now contradiction H.
Qed.

(** C4.  [updateFunctionCycles()] returns, and in the data it leaves:
    [isCycleMember()] of a function is true if and only if the cycle
    pointer of the function is not null; and the members list of every
    function cycle is closed under calls inside the cycle: when a member
    calls a function whose cycle is this cycle, that function is in the
    members list too. *)
Theorem cycle_members_closed_under_calls (d : TraceData.t) :
  exists d',
    updateFunctionCycles d = Some d' /\
    (forall f fn, getFunction d' f = Some fn ->
       (isCycleMember fn = true <-> cycle fn <> None)) /\
    (forall c cy f fn g gn,
       _functionCycles d' !! c = Some cy ->
       f ∈ TraceFunctionCycle.members cy ->
       getFunction d' f = Some fn ->
       g ∈ calledFunctions fn ->
       getFunction d' g = Some gn ->
       cycle gn = Some c ->
       g ∈ TraceFunctionCycle.members cy).
Proof.
  destruct (updateFunctionCycles_returns d) as [d' Hd'].
  exists d'. split; [exact Hd'|]. split.
  - intros f fn _. apply isCycleMember_iff.
  - intros c cy f fn g gn Hcy _ _ _ Hg Hc.
    destruct (consistent_updateFunctionCycles d d' Hd' g gn c Hg Hc)
      as (cy' & Hcy' & Hin).
    rewrite Hcy in Hcy'. now injection Hcy' as <-.
Qed.

(** Recursion: main calls main.  One cycle with the number 1 that
    contains main; the call is inside the cycle. *)
Example cycles_main :
  exists d',
    updateFunctionCycles dataMain = Some d' /\
    (TraceFunctionCycle.members <$> _functionCycles d') = [[0%nat]] /\
    (TraceFunctionCycle.cycleNo <$> _functionCycles d') = [1] /\
    (TraceFunction.cycle <$> getFunction d' 0) = Some (Some 0%nat) /\
    inCycle d' (TraceCall.mk 0 0 "main" (costVector [])) = 1.
Proof.
  eexists. split; [vm_compute; reflexivity|].
  split; [vm_compute; reflexivity|]. split; [vm_compute; reflexivity|].
  split; vm_compute; reflexivity.
Qed.

(** Mutual recursion: a calls b and d, b calls c, c calls a.  One cycle
    of a, b and c; d is not in a cycle; from outside, the cycle calls
    d. *)
Example cycles_abcd :
  exists d',
    updateFunctionCycles dataABCD = Some d' /\
    (TraceFunctionCycle.members <$> _functionCycles d')
    = [[2; 1; 0]%nat] /\
    (TraceFunction.isCycleMember <$> (snd <$> _functionMap d'))
    = [true; true; true; false] /\
    (fun cy => TraceCall._called <$> TraceFunctionCycle._callings cy)
      <$> _functionCycles d' = [[3%nat]] /\
    updateFunctionCycles d' = Some d'.
Proof.
  eexists. split; [vm_compute; reflexivity|].
  split; [vm_compute; reflexivity|]. split; [vm_compute; reflexivity|].
  split; vm_compute; reflexivity.
Qed.

(** In the cycle of a, b and c: the member a calls b, b points to the
    cycle, and b is a member. *)
Lemma cycle_members_closed_under_calls_abcd :
  exists d' cy,
    updateFunctionCycles dataABCD = Some d' /\
    _functionCycles d' !! 0%nat = Some cy /\
    0%nat ∈ TraceFunctionCycle.members cy /\
    1%nat ∈ TraceFunctionCycle.members cy.
Proof.
  destruct (cycle_members_closed_under_calls dataABCD)
    as (d' & Hd' & _ & Hclosed).
  vm_compute in Hd'. injection Hd' as <-.
  eexists _, _. split; [vm_compute; reflexivity|].
  split; [reflexivity|]. split.
  - cbn. apply elem_of_cons. right. apply elem_of_cons. right.
    apply elem_of_cons. left. reflexivity.
  - eapply (Hclosed 0%nat _ 0%nat _ 1%nat).
    + reflexivity.
    + cbn. apply elem_of_cons. right. apply elem_of_cons. right.
      apply elem_of_cons. left. reflexivity.
    + reflexivity.
    + cbn. apply elem_of_cons. left. reflexivity.
    + reflexivity.
    + reflexivity.
Defined.

End CycleTheorem.

(** ** SubCost: comparisons with integers *)

Module SubCostCompareFacts.
Import MachInt MachIntFacts SubCost SubCostFacts SubCostOps.

Lemma to_unsigned_small (i : Z) : 0 <= i < 2 ^ 32 -> to_unsigned i = i.
Proof. intros H. unfold to_unsigned. now apply Z.mod_small. Qed.

Lemma v_of_int (i : Z) : v (of_int i) = to_unsigned i.
Proof.
  cbn. apply to_uint64_small. pose proof (to_unsigned_range i). lia.
Qed.

(** X1.  A counter constructed from an [int] compares equal to that
    [int], negative or not.  A counter that was assigned the [int]
    compares equal to it exactly when the [int] is not negative. *)
Theorem eq_int_after_ctor_and_assign (s : t) (i : Z) :
  is_int i ->
  eq_int (of_int i) i = true /\
  (eq_int (assign_int s i) i = true <-> 0 <= i).
Proof.
  unfold is_int, int_min, int_max. intros Hi. unfold eq_int. split.
  - rewrite v_of_int. apply Z.eqb_refl.
  - rewrite Z.eqb_eq. destruct (Z.lt_ge_cases i 0) as [Hneg|Hpos].
    + rewrite assign_int_neg by (unfold int_min; lia).
      rewrite to_unsigned_neg by lia. lia.
    + rewrite assign_int_nonneg by (unfold int_max; lia).
      rewrite to_unsigned_small by lia. lia.
Qed.

Lemma eq_int_after_ctor_and_assign_minus_one :
  is_int (-1) /\
  eq_int (of_int (-1)) (-1) = true /\
  eq_int (assign_int (of_int 0) (-1)) (-1) = false.
Proof.
  assert (H : is_int (-1)) by (unfold is_int, int_min, int_max; lia).
  destruct (eq_int_after_ctor_and_assign (of_int 0) (-1) H) as [Hc Ha].
  split; [exact H|]. split; [exact Hc|].
  destruct (eq_int (assign_int (of_int 0) (-1)) (-1)); [|reflexivity].
  assert (0 <= -1) by (apply Ha; reflexivity). lia.
Defined.

(** X2.  Comparing a counter with an [int] compares it with the 32-bit
    unsigned conversion of the [int].  For an [int] that is not negative
    this is the comparison of the numbers.  A negative [int] [i] stands
    for [i + 2^32]: every counter below 2^31 is less than it, none of
    them is greater, and no counter is less than 0. *)
Theorem compare_with_int (s : t) (i : Z) :
  is_int i ->
  (0 <= i ->
     (lt_int s i = true <-> v s < i) /\
     (gt_int s i = true <-> v s > i) /\
     (eq_int s i = true <-> v s = i)) /\
  (i < 0 ->
     (lt_int s i = true <-> v s < i + 2 ^ 32) /\
     (gt_int s i = true <-> v s > i + 2 ^ 32) /\
     (eq_int s i = true <-> v s = i + 2 ^ 32)) /\
  (i < 0 -> 0 <= v s < 2 ^ 31 ->
     lt_int s i = true /\ gt_int s i = false /\ eq_int s i = false) /\
  (valid s -> lt_int s 0 = false).
Proof.
  unfold is_int, int_min, int_max. intros Hi.
  assert (Hcmp : forall u,
             (lt_int s i = true <-> v s < u) /\
             (gt_int s i = true <-> v s > u) /\
             (eq_int s i = true <-> v s = u) <->
             ((v s <? to_unsigned i) = true <-> v s < u) /\
             ((v s >? to_unsigned i) = true <-> v s > u) /\
             ((v s =? to_unsigned i) = true <-> v s = u)) by reflexivity.
  assert (Hall : (v s <? to_unsigned i) = true <-> v s < to_unsigned i)
    by apply Z.ltb_lt.
  assert (Hgt : (v s >? to_unsigned i) = true <-> v s > to_unsigned i).
  { rewrite Z.gtb_ltb, Z.ltb_lt. lia. }
  assert (Heq : (v s =? to_unsigned i) = true <-> v s = to_unsigned i)
    by apply Z.eqb_eq.
  split; [|split; [|split]].
  - intros Hpos. apply Hcmp.
    rewrite Hall, Hgt, Heq, to_unsigned_small by lia. tauto.
  - intros Hneg. apply Hcmp.
    rewrite Hall, Hgt, Heq, to_unsigned_neg by lia. tauto.
  - intros Hneg Hv. unfold lt_int, gt_int, eq_int.
    rewrite to_unsigned_neg by lia. split; [|split].
    + apply Z.ltb_lt. lia.
    + rewrite Z.gtb_ltb. apply Z.ltb_ge. lia.
    + apply Z.eqb_neq. lia.
  - intros [Hlo _]. unfold lt_int. apply Z.ltb_ge. exact Hlo.
Qed.

Lemma compare_with_int_five_minus_one :
  is_int (-1) /\
  lt_int (of_int 5) (-1) = true /\
  gt_int (of_int 5) (-1) = false /\
  eq_int (of_int 5) (-1) = false.
Proof.
  assert (H : is_int (-1)) by (unfold is_int, int_min, int_max; lia).
  destruct (compare_with_int (of_int 5) (-1) H) as (_ & _ & Hsmall & _).
  split; [exact H|]. apply Hsmall; [lia|].
  rewrite of_int_nonneg by (unfold int_max; lia). lia.
Defined.

(** X3.  Of the three comparisons of a counter with an integer, [==],
    [<] and [>], exactly one holds: for every [int] and for every
    [unsigned]. *)
Theorem integer_comparisons_exclusive (s : t) (i : Z) :
  (eq_int s i = true /\ lt_int s i = false /\ gt_int s i = false
   \/ eq_int s i = false /\ lt_int s i = true /\ gt_int s i = false
   \/ eq_int s i = false /\ lt_int s i = false /\ gt_int s i = true) /\
  (eq_unsigned s i = true /\ lt_unsigned s i = false
     /\ gt_unsigned s i = false
   \/ eq_unsigned s i = false /\ lt_unsigned s i = true
        /\ gt_unsigned s i = false
   \/ eq_unsigned s i = false /\ lt_unsigned s i = false
        /\ gt_unsigned s i = true).
Proof.
  assert (Htri : forall a b : Z,
             (a =? b) = true /\ (a <? b) = false /\ (a >? b) = false
             \/ (a =? b) = false /\ (a <? b) = true /\ (a >? b) = false
             \/ (a =? b) = false /\ (a <? b) = false /\ (a >? b) = true).
  { intros a b. rewrite Z.gtb_ltb.
    destruct (Z.eqb_spec a b); destruct (Z.ltb_spec a b);
      destruct (Z.ltb_spec b a); try lia; tauto. }
  split; apply Htri.
Qed.

(** X4.  For a value that the type of the argument holds, construction
    and assignment yield the same counter, with that value: for
    [uint64], for [unsigned], and for an [int] that is not negative. *)
Theorem ctor_and_assign_keep_value (s : t) (x : Z) :
  (is_uint64 x -> v (of_uint64 x) = x /\ v (assign_uint64 s x) = x) /\
  (is_unsigned x ->
     v (of_unsigned x) = x /\ v (assign_unsigned s x) = x /\
     eq_unsigned (of_unsigned x) x = true) /\
  (0 <= x <= int_max ->
     v (of_int x) = x /\ v (assign_int s x) = x /\
     eq_int (assign_int s x) x = true).
Proof.
  unfold is_uint64, is_unsigned. split; [|split].
  - intros Hx. cbn. rewrite to_uint64_small by exact Hx. auto.
  - intros Hx.
    assert (Hv : to_uint64 (to_unsigned x) = x).
    { rewrite to_unsigned_small by exact Hx. apply to_uint64_small. lia. }
    cbn. unfold eq_unsigned. cbn. rewrite Hv, Z.eqb_refl. auto.
  - intros Hx. rewrite of_int_nonneg, assign_int_nonneg by exact Hx.
    split; [reflexivity|]. split; [reflexivity|].
    unfold eq_int. rewrite assign_int_nonneg by exact Hx.
    unfold int_max in Hx. rewrite to_unsigned_small by lia.
    apply Z.eqb_refl.
Qed.

(** X5.  On counters, [<] is a strict total order of the values, and
    [>] is its converse. *)
Theorem counter_order (a b c : t) :
  lt a a = false /\
  (lt a b = true -> lt b a = false) /\
  (lt a b = true -> lt b c = true -> lt a c = true) /\
  (lt a b = false -> lt b a = false -> v a = v b) /\
  gt a b = lt b a /\
  (lt a b = true \/ gt a b = true \/ v a = v b).
Proof.
  unfold lt, gt. split; [apply Z.ltb_irrefl|].
  split; [intros H; apply Z.ltb_lt in H; apply Z.ltb_ge; lia|].
  split; [intros H1 H2; apply Z.ltb_lt in H1, H2; apply Z.ltb_lt; lia|].
  split; [intros H1 H2; apply Z.ltb_ge in H1, H2; lia|].
  split; [reflexivity|].
  destruct (Z.ltb_spec (v a) (v b)); destruct (Z.ltb_spec (v b) (v a));
    auto. right. right. lia.
Qed.

End SubCostCompareFacts.

(** ** TraceSubMapping: the loop over the unused indexes, the sentinel *)

Module TraceSubMappingLoopFacts.
Import CArrayFacts TraceSubMapping TraceSubMappingFacts TraceSubMappingInv.
Import Samples.

Lemma nextUnused_not_sentinel (sm : t) (i j : Z) :
  nextUnused sm i = Some j -> j <> InvalidIndex -> 0 <= i < MaxRealIndex.
Proof.
  intros Hn Hj. destruct (Z.lt_ge_cases i 0) as [Hneg|Hpos].
  - rewrite nextUnused_out_of_range in Hn by (left; exact Hneg).
    congruence.
  - destruct (Z.lt_ge_cases i MaxRealIndex) as [Hlt|Hge]; [lia|].
    rewrite nextUnused_out_of_range in Hn by (right; lia). congruence.
Qed.

Lemma unusedFrom_rounds (fuel : nat) (sm : t) (i : Z) (l : list Z) :
  unusedFrom fuel sm i = Some l ->
  (length l <= fuel)%nat /\
  Forall (fun k => k <> InvalidIndex) l /\
  (forall k, l !! 0%nat = Some k -> k = i) /\
  (forall round x y, l !! round = Some x -> l !! S round = Some y ->
                     0 <= x < MaxRealIndex /\ nextUnused sm x = Some y).
Proof.
  revert i l. induction fuel as [|fuel IH]; intros i l; cbn.
  - intros [= <-]. cbn. repeat split; try lia; try constructor;
      intros; discriminate.
  - destruct (Z.eqb_spec i InvalidIndex) as [Hi|Hi].
    { intros [= <-]. cbn. repeat split; try lia; try constructor;
        intros; discriminate. }
    destruct (nextUnused sm i) as [j|] eqn:Hj; [|discriminate].
    destruct (unusedFrom fuel sm j) as [l'|] eqn:Hl'; [|discriminate].
    intros [= <-]. destruct (IH j l' Hl') as (Hlen & Hall & Hhead & Hstep).
    split; [cbn; lia|]. split; [constructor; assumption|].
    split; [intros k [= <-]; reflexivity|].
    intros [|n] a b Ha Hb.
    + cbn in Ha, Hb. injection Ha as <-.
      pose proof (Hhead b Hb) as Hbj. subst b. split; [|exact Hj].
      apply (nextUnused_not_sentinel sm i j Hj).
      rewrite Forall_lookup in Hall. exact (Hall 0%nat j Hb).
    + cbn in Ha, Hb. exact (Hstep n a b Ha Hb).
Qed.

(** X6.  The loop [for(i = firstUnused(); i != InvalidIndex;
    i = nextUnused(i))] starts at [firstUnused()], never runs its body
    with [InvalidIndex], and steps from each index to [nextUnused] of
    it; every index that it steps on from is a real index in
    [0 .. MaxRealIndex-1], so an index outside that range can only be
    the one of the last round. *)
Theorem unused_loop_rounds (fuel : nat) (sm : t) :
  exists l,
    unusedIndexes fuel sm = Some l /\
    (length l <= fuel)%nat /\
    Forall (fun k => k <> InvalidIndex) l /\
    (forall k, l !! 0%nat = Some k -> k = firstUnused sm) /\
    (forall round x y, l !! round = Some x -> l !! S round = Some y ->
                       0 <= x < MaxRealIndex /\ nextUnused sm x = Some y).
Proof.
  unfold unusedIndexes.
  destruct (unusedFrom_reads_inside fuel sm (firstUnused sm)) as [l Hl].
  exists l. split; [exact Hl|]. now apply unusedFrom_rounds.
Qed.

(** The chain of the unused indexes 3 and 4. *)
Example unused_loop_sm201 :
  unusedIndexes 10 sm201unused = Some [3; 4].
Proof. reflexivity. Qed.

(** X7.  In a sub-mapping whose count is within the table and whose used
    slots hold real indexes, the sentinel is not ambiguous:
    [realIndex(i)] is [InvalidIndex] exactly when [i] is outside
    [0 .. count()-1], and for [i] inside it is a real index in
    [0 .. MaxRealIndex-1]. *)
Theorem realIndex_sentinel_iff (sm : t) (i : Z) :
  count_ok sm -> entries_ok sm ->
  (realIndex sm i = Some InvalidIndex <-> i < 0 \/ i >= count sm) /\
  (0 <= i < count sm ->
     exists r, realIndex sm i = Some r /\ 0 <= r < MaxRealIndex).
Proof.
  intros [Hlo Hhi] Hent.
  assert (Hin : 0 <= i < count sm ->
                exists r, realIndex sm i = Some r /\ 0 <= r < MaxRealIndex).
  { intros Hi. rewrite realIndex_in_range by exact Hi.
    destruct (aget_in_range (_realIndex sm) i) as [r Hr].
    - rewrite MaxRealSlots_eq. unfold count in Hi. lia.
    - exists r. split; [exact Hr|]. exact (Hent i r Hi Hr). }
  split; [|exact Hin]. split.
  - intros Hs. destruct (Z.lt_ge_cases i 0) as [Hneg|Hpos]; [lia|].
    destruct (Z.lt_ge_cases i (count sm)) as [Hlt|Hge]; [|lia].
    destruct Hin as (r & Hr & Hrange); [lia|].
    rewrite Hr in Hs. injection Hs as ->. unfold InvalidIndex in Hrange. lia.
  - apply realIndex_out_of_range.
Qed.

Lemma realIndex_sentinel_iff_sm201 :
  count_ok sm201unused /\ entries_ok sm201unused /\
  realIndex sm201unused 0 = Some 2 /\
  realIndex sm201unused 3 = Some InvalidIndex.
Proof.
  assert (Hc : count_ok sm201unused)
    by (unfold count_ok, MaxRealIndex; cbn; lia).
  assert (He : entries_ok sm201unused).
  { intros i r Hi. cbn in Hi.
    assert (Hcases : i = 0 \/ i = 1 \/ i = 2) by lia.
    destruct Hcases as [-> | [-> | ->]]; cbn; intros [= <-];
      unfold MaxRealIndex; lia. }
  split; [exact Hc|]. split; [exact He|].
  destruct (realIndex_sentinel_iff sm201unused 3 Hc He) as [Hiff _].
  split; [reflexivity|]. apply Hiff. right. cbn. lia.
Defined.

End TraceSubMappingLoopFacts.

(** ** TraceJumpCost: the counts of a jump *)

Module TraceJumpCostFacts.
Import MachInt MachIntFacts SubCost SubCostOps TraceJumpCost ActiveSum.
Import Samples.

Lemma plusAssign_comm (s a b : SubCost.t) :
  plusAssign (plusAssign s a) b = plusAssign (plusAssign s b) a.
Proof.
  unfold plusAssign, add64. cbn. f_equal.
  rewrite !to_uint64_add_l. f_equal. lia.
Qed.

Lemma addCount_comm (j : TraceJumpCost.t) (a b : SubCost.t + SubCost.t) :
  addCount (addCount j a) b = addCount (addCount j b) a.
Proof.
  destruct a as [a|a], b as [b|b]; cbn;
    unfold addFollowedCount, addExecutedCount; cbn;
    try reflexivity; f_equal; apply plusAssign_comm.
Qed.

Lemma addCounts_permutation (l l' : list (SubCost.t + SubCost.t)) :
  l ≡ₚ l' ->
  forall j, fold_left addCount l j = fold_left addCount l' j.
Proof.
  intros Hperm. induction Hperm; intros j; cbn [fold_left].
  - reflexivity.
  - auto.
  - apply f_equal. apply addCount_comm.
  - etransitivity; eauto.
Qed.

Lemma sums_cons_followed (c : SubCost.t)
      (calls : list (SubCost.t + SubCost.t)) :
  followedSum (inl c :: calls) = v c + followedSum calls /\
  executedSum (inl c :: calls) = executedSum calls.
Proof. split; reflexivity. Qed.

Lemma sums_cons_executed (c : SubCost.t)
      (calls : list (SubCost.t + SubCost.t)) :
  followedSum (inr c :: calls) = followedSum calls /\
  executedSum (inr c :: calls) = v c + executedSum calls.
Proof. split; reflexivity. Qed.

Lemma addCounts_sums (calls : list (SubCost.t + SubCost.t))
      (j : TraceJumpCost.t) (f e : Z) :
  v (_followedCount j) = to_uint64 f ->
  v (_executedCount j) = to_uint64 e ->
  v (_followedCount (fold_left addCount calls j))
  = to_uint64 (f + followedSum calls) /\
  v (_executedCount (fold_left addCount calls j))
  = to_uint64 (e + executedSum calls).
Proof.
  revert j f e. induction calls as [|c calls IH]; intros j f e Hf He.
  - cbn. rewrite !Z.add_0_r. auto.
  - cbn [fold_left]. destruct c as [c|c].
    + destruct (IH (addCount j (inl c)) (f + v c) e) as [IHf IHe].
      * cbn. unfold add64. rewrite Hf. apply to_uint64_add_l.
      * exact He.
      * destruct (sums_cons_followed c calls) as [-> ->].
        rewrite IHf, IHe. split; f_equal; lia.
    + destruct (IH (addCount j (inr c)) f (e + v c)) as [IHf IHe].
      * exact Hf.
      * cbn. unfold add64. rewrite He. apply to_uint64_add_l.
      * destruct (sums_cons_executed c calls) as [-> ->].
        rewrite IHf, IHe. split; f_equal; lia.
Qed.

(** X8.  After any sequence of calls of [addFollowedCount] and
    [addExecutedCount] on valid counters, each count is its start value
    plus the sum of what was added to it, modulo 2^64; the calls for one
    count leave the other one alone, and the order of the calls does not
    matter. *)
Theorem jump_counts_accumulate
        (j : TraceJumpCost.t) (calls : list (SubCost.t + SubCost.t)) :
  valid (_followedCount j) -> valid (_executedCount j) ->
  v (_followedCount (fold_left addCount calls j))
  = to_uint64 (v (_followedCount j) + followedSum calls) /\
  v (_executedCount (fold_left addCount calls j))
  = to_uint64 (v (_executedCount j) + executedSum calls) /\
  (forall calls', calls ≡ₚ calls' ->
     fold_left addCount calls' j = fold_left addCount calls j).
Proof.
  unfold valid, is_uint64. intros Hf He.
  destruct (addCounts_sums calls j (v (_followedCount j))
              (v (_executedCount j))) as [Hfs Hes].
  - symmetry. now apply to_uint64_small.
  - symmetry. now apply to_uint64_small.
  - split; [exact Hfs|]. split; [exact Hes|].
    intros calls' Hperm. symmetry. now apply addCounts_permutation.
Qed.

Lemma jump_counts_accumulate_sample :
  valid (_followedCount jump10of4) /\ valid (_executedCount jump10of4) /\
  v (_followedCount
       (fold_left addCount [inr (of_int 5); inl (of_int 2)] jump10of4)) = 6 /\
  v (_executedCount
       (fold_left addCount [inr (of_int 5); inl (of_int 2)] jump10of4)) = 15.
Proof.
  assert (Hf : valid (_followedCount jump10of4)).
  { unfold valid, is_uint64, jump10of4. cbn [_followedCount].
    rewrite SubCostFacts.of_int_nonneg by (unfold int_max; lia). lia. }
  assert (He : valid (_executedCount jump10of4)).
  { unfold valid, is_uint64, jump10of4. cbn [_executedCount].
    rewrite SubCostFacts.of_int_nonneg by (unfold int_max; lia). lia. }
  destruct (jump_counts_accumulate jump10of4
              [inr (of_int 5); inl (of_int 2)] Hf He) as (H1 & H2 & _).
  split; [exact Hf|]. split; [exact He|]. split.
  - rewrite H1. reflexivity.
  - rewrite H2. reflexivity.
Defined.

End TraceJumpCostFacts.

(** ** TracePartFunction: exchanging the head of a list *)

Module TracePartFunctionFacts.
Import TracePartFunction.

Lemma setFirstFixCosts_spec (fcs : list (option nat)) (pf : t) :
  snd (setFirstFixCosts pf fcs)
  = take (length fcs) (firstFixCost pf :: fcs) /\
  last (firstFixCost pf :: fcs)
  = Some (firstFixCost (fst (setFirstFixCosts pf fcs))) /\
  firstFixJump (fst (setFirstFixCosts pf fcs)) = firstFixJump pf.
Proof.
  revert pf. induction fcs as [|fc rest IH]; intros pf.
  - cbn. auto.
  - cbn [setFirstFixCosts]. unfold setFirstFixCost.
    destruct (IH {| _firstFixCost := fc; _firstFixJump := _firstFixJump pf |})
      as (Hret & Hlast & Hjump).
    destruct (setFirstFixCosts _ rest) as [pf2 olds]. cbn [fst snd] in *.
    split; [|split].
    + cbn [length take]. rewrite Hret. reflexivity.
    + rewrite <- Hlast. reflexivity.
    + exact Hjump.
Qed.

(** X9.  [setFirstFixCost] exchanges the head of the list: in a sequence
    of calls, the first call returns the head from before and every
    further call returns the pointer that the call before it installed;
    after the calls the head is the last pointer passed, and the head of
    the list of jumps is untouched.  [setFirstFixJump] returns the old
    head of the jumps and leaves the head of the costs untouched. *)
Theorem setFirstFixCost_exchanges (pf : t) (fcs : list (option nat))
        (fj : option nat) :
  snd (setFirstFixCosts pf fcs)
  = take (length fcs) (firstFixCost pf :: fcs) /\
  last (firstFixCost pf :: fcs)
  = Some (firstFixCost (fst (setFirstFixCosts pf fcs))) /\
  firstFixJump (fst (setFirstFixCosts pf fcs)) = firstFixJump pf /\
  snd (setFirstFixJump pf fj) = firstFixJump pf /\
  firstFixJump (fst (setFirstFixJump pf fj)) = fj /\
  firstFixCost (fst (setFirstFixJump pf fj)) = firstFixCost pf.
Proof.
  destruct (setFirstFixCosts_spec fcs pf) as (H1 & H2 & H3).
  repeat (split; [assumption || reflexivity|]). reflexivity.
Qed.

End TracePartFunctionFacts.
